(** * PubMed query optimizer: the query-analysis pipeline of [main.py]

    A shallow embedding of the pure part of [main.py] (tokenizer, tree
    parser, minimal group extraction, flattener, reconstructor, OR-keyword
    tagger) and of the elimination loop of [search_pubmed], with the
    Selenium search abstracted as a function from query strings to counts.

    Modelling conventions.
    - A Python [str] is a [string]: the model covers the texts whose
      characters have a code point below 256, each character being the
      [ascii] with that code.  Whitespace ([\s], [strip]), word
      characters ([\w], [\b]) and [upper] follow Python on these 256
      code points.
    - A function is modelled by the value it returns.  The stack of the
      interpreter is bounded: [parse_tokens_frames] models [parse_tokens]
      with the number of nested calls that the interpreter allows, and
      agrees with [parse_tokens_loop] as long as that number is not
      exceeded.
    - [QueryStructure = Union[str, List[Any]]] is the type [Node].
    - The token list that [parse_tokens] consumes with [pop(0)] is threaded
      explicitly: the loop returns the tree together with the tokens left. *)

From Stdlib Require Import String Ascii List Bool Arith ZArith Lia.
Import ListNotations.

Open Scope string_scope.
Open Scope list_scope.

(** ** Python string operations *)

Module Str.

(** [c.upper()] on one character: the letters a-z and the lower-case
    letters 224-246 and 248-254 lose 32.  The upper case of the three
    characters 181, 223 and 255 lies outside the 256 code points; they are
    kept, and a text with one of them upper-cases to no operator either
    way. *)
Definition upper_char (c : ascii) : ascii :=
  let n := nat_of_ascii c in
  if (((97 <=? n) && (n <=? 122)) || ((224 <=? n) && (n <=? 246))
      || ((248 <=? n) && (n <=? 254)))%nat
  then ascii_of_nat (n - 32) else c.

(** [s.upper()]. *)
Fixpoint upper (s : string) : string :=
  match s with
  | EmptyString => EmptyString
  | String c r => String (upper_char c) (upper r)
  end.

(** [s[n:]]. *)
Fixpoint drop (n : nat) (s : string) : string :=
  match n, s with
  | O, _ => s
  | S _, EmptyString => EmptyString
  | S k, String _ r => drop k r
  end.

(** [s[:n]]. *)
Fixpoint take (n : nat) (s : string) : string :=
  match n, s with
  | O, _ => EmptyString
  | S _, EmptyString => EmptyString
  | S k, String c r => String c (take k r)
  end.

(** [sep.join(ls)] is [String.concat sep ls]. *)
Definition join (sep : string) (ls : list string) : string :=
  String.concat sep ls.

(** The scan of [s.replace(old, new)] for a non-empty [old]: [skip]
    counts the characters of the current match still to be passed
    over. *)
Fixpoint replace_scan (old new : string) (skip : nat) (s : string) : string :=
  match s with
  | EmptyString => EmptyString
  | String c r =>
      match skip with
      | S k => replace_scan old new k r
      | O =>
          if String.prefix old s
          then new ++ replace_scan old new (String.length old - 1) r
          else String c (replace_scan old new 0 r)
      end
  end%string.

(** [s.replace(old, new)]: every non-overlapping occurrence, leftmost
    first.  With an empty [old] Python puts [new] around every
    character. *)
Fixpoint intersperse (new s : string) : string :=
  match s with
  | EmptyString => new
  | String c r => new ++ String c (intersperse new r)
  end%string.

Definition replace (old new s : string) : string :=
  match old with
  | EmptyString => intersperse new s
  | String _ _ => replace_scan old new 0 s
  end.

(** [s.find(sub)], as an option instead of [-1]. *)
Fixpoint find (sub s : string) : option nat :=
  if String.prefix sub s then Some 0
  else match s with
       | EmptyString => None
       | String _ r => option_map S (find sub r)
       end.

(** [sub in s]. *)
Definition contains (sub s : string) : bool :=
  match find sub s with Some _ => true | None => false end.

(** [sub] occurs verbatim in [s]. *)
Definition occurs (sub s : string) : Prop :=
  exists pre post, s = (pre ++ sub ++ post)%string.

End Str.

(** ** The nested query structure *)

#[warnings="-register-all"]
Inductive Node : Type :=
| Term (s : string)
| Group (items : list Node).

(** The induction principle that reaches the children of a [Group]. *)
Section NodeInd.
Variable P : Node -> Prop.
Hypothesis HTerm : forall s, P (Term s).
Hypothesis HGroup : forall l, Forall P l -> P (Group l).

Fixpoint Node_rect' (n : Node) : P n :=
  match n with
  | Term s => HTerm s
  | Group l =>
      HGroup l
        ((fix go (l : list Node) : Forall P l :=
            match l with
            | [] => Forall_nil P
            | x :: r => Forall_cons x (Node_rect' x) (go r)
            end) l)
  end.
End NodeInd.

(** [isinstance(x, list)]. *)
Definition is_list (x : Node) : bool :=
  match x with Group _ => true | Term _ => false end.

(** [s.upper() in ["AND", "OR"]]. *)
Definition is_operator (s : string) : bool :=
  String.eqb (Str.upper s) "AND" || String.eqb (Str.upper s) "OR".

(** ** Step 1: tokenizer and tree parser *)

(** [\s], which is also the whitespace of [strip]: tab, LF, VT, FF, CR,
    the separators 28-31, space, NEL (133) and the no-break space (160). *)
Definition is_space (c : ascii) : bool :=
  let n := nat_of_ascii c in
  (((9 <=? n) && (n <=? 13)) || ((28 <=? n) && (n <=? 32))
   || (n =? 133) || (n =? 160))%nat.

(** [\w]: the digits, the letters and the underscore of ASCII, and above
    them the letters and numeric characters 170, 178-179, 181, 185-186,
    188-190, 192-214, 216-246 and 248-255. *)
Definition is_word (c : ascii) : bool :=
  let n := nat_of_ascii c in
  (((48 <=? n) && (n <=? 57)) || ((65 <=? n) && (n <=? 90))
   || (n =? 95) || ((97 <=? n) && (n <=? 122))
   || (n =? 170) || ((178 <=? n) && (n <=? 179)) || (n =? 181)
   || ((185 <=? n) && (n <=? 186)) || ((188 <=? n) && (n <=? 190))
   || ((192 <=? n) && (n <=? 214)) || ((216 <=? n) && (n <=? 246))
   || ((248 <=? n) && (n <=? 255)))%nat.

(** A character of the class [[^\s()]]. *)
Definition is_term_char (c : ascii) : bool :=
  negb (is_space c) && negb (Ascii.eqb c "(") && negb (Ascii.eqb c ")").

(** The greedy match of [[^\s()]+] at the head of [s] (empty: no match). *)
Fixpoint term_run (s : string) : string :=
  match s with
  | EmptyString => EmptyString
  | String c r => if is_term_char c then String c (term_run r) else EmptyString
  end.

(** [\b] in front of a word character, [prev] being the character before
    the position (none at the start of the text). *)
Definition boundary_before (prev : option ascii) : bool :=
  match prev with
  | None => true
  | Some p => negb (is_word p)
  end.

(** [\b] behind a word character, [rest] being the text that follows. *)
Definition boundary_after (rest : string) : bool :=
  match rest with
  | EmptyString => true
  | String c _ => negb (is_word c)
  end.

(** [\bkw\b] at the head of [s], for a keyword made of word characters. *)
Definition match_keyword (kw : string) (prev : option ascii) (s : string) : bool :=
  boundary_before prev && String.prefix kw s
  && boundary_after (Str.drop (String.length kw) s).

(** One attempt of the pattern [\(|\)|\bAND\b|\bOR\b|[^\s()]+] at the head
    of [s]: the alternatives are tried in this order. *)
Definition match_token (prev : option ascii) (s : string) : option string :=
  if String.prefix "(" s then Some "("
  else if String.prefix ")" s then Some ")"
  else if match_keyword "AND" prev s then Some "AND"
  else if match_keyword "OR" prev s then Some "OR"
  else match term_run s with
       | EmptyString => None
       | run => Some run
       end.

(** [token_pattern.findall]: the text is scanned left to right, a match is
    emitted and passed over, a position without match is passed over by one
    character.  [skip] counts the characters of the match still to pass. *)
Fixpoint findall (prev : option ascii) (skip : nat) (s : string) : list string :=
  match s with
  | EmptyString => []
  | String c r =>
      match skip with
      | S k => findall (Some c) k r
      | O =>
          match match_token prev s with
          | Some tok => tok :: findall (Some c) (String.length tok - 1) r
          | None => findall (Some c) 0 r
          end
      end
  end.

Definition tokenize (query : string) : list string :=
  findall None 0 query.

(** The [while tokens:] loop of [parse_tokens], on the tokens still to be
    read and the [tree] built so far; it returns the tree and the tokens
    left in the shared list.  [fuel] bounds the recursion; [None] is
    fuel exhausted, which [parse_tokens] excludes. *)
Fixpoint parse_tokens_loop (fuel : nat) (tokens : list string) (tree : list Node)
  : option (list Node * list string) :=
  match fuel with
  | O => None
  | S fuel' =>
      match tokens with
      | [] => Some (tree, [])
      | token :: tokens' =>
          if String.eqb token "(" then
            match parse_tokens_loop fuel' tokens' [] with
            | Some (subtree, rest) =>
                parse_tokens_loop fuel' rest (tree ++ [Group subtree])
            | None => None
            end
          else if String.eqb token ")" then Some (tree, tokens')
          else parse_tokens_loop fuel' tokens' (tree ++ [Term token])
      end
  end.

(** [parse_tokens(tokens)], with the tokens it leaves unread, as long as
    the calls nest no deeper than the interpreter allows
    ([parse_tokens_frames] below counts them). *)
Definition parse_tokens_rest (tokens : list string) : option (list Node * list string) :=
  parse_tokens_loop (S (List.length tokens)) tokens [].

Definition parse_tokens (tokens : list string) : option Node :=
  option_map (fun r => Group (fst r)) (parse_tokens_rest tokens).

Definition parse_query (query : string) : option Node :=
  parse_tokens (tokenize query).

(** What a call gives: the value it returns, or the [RecursionError]
    that Python raises when calls nest deeper than the interpreter
    allows.  Nothing in [main.py] catches it. *)
Inductive Outcome (A : Type) : Type :=
| Returned (value : A)
| RecursionError.

Arguments Returned {A} value.
Arguments RecursionError {A}.

(** The loop of [parse_tokens] with the stack counted: [frames] is the
    number of nested calls of [parse_tokens] that the interpreter still
    allows inside the running one.  The call made at a ["("] needs one;
    without one it raises, and the error passes through every enclosing
    call. *)
Fixpoint parse_tokens_frames (fuel frames : nat) (tokens : list string)
         (tree : list Node) : option (Outcome (list Node * list string)) :=
  match fuel with
  | O => None
  | S fuel' =>
      match tokens with
      | [] => Some (Returned (tree, []))
      | token :: tokens' =>
          if String.eqb token "(" then
            match frames with
            | O => Some RecursionError
            | S frames' =>
                match parse_tokens_frames fuel' frames' tokens' [] with
                | Some (Returned (subtree, rest)) =>
                    parse_tokens_frames fuel' frames rest
                                        (tree ++ [Group subtree])
                | Some RecursionError => Some RecursionError
                | None => None
                end
            end
          else if String.eqb token ")" then Some (Returned (tree, tokens'))
          else parse_tokens_frames fuel' frames tokens' (tree ++ [Term token])
      end
  end.

(** [parse_tokens(tokens)] when the interpreter allows [frames] nested
    calls inside it, with the tokens left unread. *)
Definition parse_tokens_limited_rest (frames : nat) (tokens : list string)
  : option (Outcome (list Node * list string)) :=
  parse_tokens_frames (S (List.length tokens)) frames tokens [].

Definition parse_tokens_limited (frames : nat) (tokens : list string)
  : option (Outcome Node) :=
  match parse_tokens_limited_rest frames tokens with
  | Some (Returned (tree, _)) => Some (Returned (Group tree))
  | Some RecursionError => Some RecursionError
  | None => None
  end.

Definition parse_query_limited (frames : nat) (query : string)
  : option (Outcome Node) :=
  parse_tokens_limited frames (tokenize query).

(** ** Step 2: minimal groups, flattening, reconstruction *)

Fixpoint contains_operator (group : Node) : bool :=
  match group with
  | Group l =>
      existsb (fun elem =>
                 match elem with
                 | Group _ => contains_operator elem
                 | Term s => is_operator s
                 end) l
  | Term _ => false
  end.

(** [isinstance(elem, list) and contains_operator(elem)]. *)
Definition is_operator_group (elem : Node) : bool :=
  is_list elem && contains_operator elem.

(** The loop state is [(child_has_operator, minimal_groups)]. *)
Fixpoint get_minimal_operator_groups (tree : Node) : list Node :=
  match tree with
  | Group l =>
      if contains_operator tree then
        let '(child_has_operator, minimal_groups) :=
          fold_left
            (fun st elem =>
               match elem with
               | Group _ =>
                   if contains_operator elem
                   then (true, snd st ++ get_minimal_operator_groups elem)
                   else st
               | Term _ => st
               end)
            l (false, [])
        in
        if negb child_has_operator then minimal_groups ++ [tree]
        else minimal_groups
      else []
  | Term _ => []
  end.

Definition is_list_within (item_list : list Node) : bool :=
  existsb is_list item_list.

(** ["OR" in modified_list]: a string equals no list. *)
Definition or_in (modified_list : list Node) : bool :=
  existsb (fun x => match x with
                    | Term s => String.eqb "OR" s
                    | Group _ => false
                    end) modified_list.

(** The string of an item handed to [" ".join]; the guard
    [not is_list_within] lets only strings reach it. *)
Definition item_str (x : Node) : string :=
  match x with Term s => s | Group _ => EmptyString end.

Fixpoint join_keyword (item_list : Node) : Node :=
  let modified_list :=
    match item_list with
    | Group l =>
        map (fun item =>
               match item with
               | Group _ => join_keyword item
               | Term _ => item
               end) l
    | Term _ => [item_list]
    end in
  if negb (or_in modified_list) && negb (is_list_within modified_list)
  then Term (Str.join " " (map item_str modified_list))
  else Group modified_list.

Fixpoint reverse_joined_keywords (structure : Node) (top_level : bool) : string :=
  match structure with
  | Term s => if is_operator s then s else ("(" ++ s ++ ")")%string
  | Group l =>
      let reconstructed_parts :=
        map (fun item => reverse_joined_keywords item false) l in
      let joined_string := Str.join " " reconstructed_parts in
      if negb top_level then ("(" ++ joined_string ++ ")")%string
      else joined_string
  end.

(** ** Step 3: OR-keyword tagger and elimination loop *)

(** An entry [[keyword, position_hint]]; the hint is a string or [None]. *)
Definition OrKeyword : Type := (string * option string)%type.

(** The second half of [get_or_keyword]: [final_list] from
    [keywords_list]. *)
Definition position_hints (keywords_list : list OrKeyword) : list OrKeyword :=
  match keywords_list with
  | [] => []
  | first :: rest =>
      (if (1 <? List.length keywords_list)%nat
       then (fst first, Some "after")
       else (fst first, None))
      :: map (fun keyword => (fst keyword, Some "before")) rest
  end.

Fixpoint get_or_keyword (joined_keywords_list : Node) : list OrKeyword :=
  let keywords_list :=
    match joined_keywords_list with
    | Group l =>
        flat_map (fun item =>
                    match item with
                    | Group _ => get_or_keyword item
                    | Term s => if is_operator s then [] else [(s, None)]
                    end) l
    | Term s => if negb (is_operator s) then [(s, None)] else []
    end in
  position_hints keywords_list.

(** [replace_text] of one loop iteration of [search_pubmed]. *)
Definition replace_text (or_keyword : OrKeyword) : string :=
  match snd or_keyword with
  | Some hint =>
      if String.eqb hint "before" then " OR (" ++ fst or_keyword ++ ")"
      else if String.eqb hint "after" then "(" ++ fst or_keyword ++ ") OR "
      else "(" ++ fst or_keyword ++ ")"
  | None => "(" ++ fst or_keyword ++ ")"
  end%string.

(** [new_query = current_query.replace(replace_text, "")]. *)
Definition new_query (current_query : string) (or_keyword : OrKeyword) : string :=
  Str.replace (replace_text or_keyword) "" current_query.

Section SearchPubmed.

(** The result-count oracle [perform_search], as a function of the
    query string. *)
Variable perform_search : string -> Z.

(** One iteration of the [for or_keyword in or_keywords] loop, on the
    state [(excluded_keywords, current_query)]. *)
Definition search_step (result_count : Z) (st : list string * string)
           (or_keyword : OrKeyword) : list string * string :=
  let '(excluded_keywords, current_query) := st in
  let new_q := new_query current_query or_keyword in
  let new_count := perform_search new_q in
  if Z.eqb new_count result_count
  then (excluded_keywords ++ [fst or_keyword], new_q)
  else (excluded_keywords, current_query).

(** The loop state once the keywords [done] have been processed. *)
Definition search_loop (query : string) (done : list OrKeyword)
  : list string * string :=
  fold_left (search_step (perform_search query)) done ([], query).

Definition search_pubmed (query : string) (or_keywords : list OrKeyword)
  : Z * string * list string :=
  let result_count := perform_search query in
  let '(excluded_keywords, current_query) := search_loop query or_keywords in
  (result_count, current_query, excluded_keywords).

End SearchPubmed.

(** ** Notions the properties are stated with *)

(** The term and operator tokens of a tree, left to right. *)
Fixpoint flatten_tokens (tree : Node) : list string :=
  match tree with
  | Term s => [s]
  | Group l => flat_map flatten_tokens l
  end.

Definition is_paren (token : string) : bool :=
  String.eqb token "(" || String.eqb token ")".

(** Parentheses balanced, by the usual depth count started at [depth]. *)
Fixpoint balanced_from (depth : nat) (tokens : list string) : bool :=
  match tokens with
  | [] => (depth =? 0)%nat
  | token :: rest =>
      if String.eqb token "(" then balanced_from (S depth) rest
      else if String.eqb token ")" then
        match depth with
        | O => false
        | S d => balanced_from d rest
        end
      else balanced_from depth rest
  end.

Definition balanced (tokens : list string) : bool := balanced_from 0 tokens.

(** The same notion as a grammar, the form the proofs follow. *)
Inductive Balanced : list string -> Prop :=
| Balanced_nil : Balanced []
| Balanced_token token rest :
    is_paren token = false -> Balanced rest -> Balanced (token :: rest)
| Balanced_group inner outer :
    Balanced inner -> Balanced outer ->
    Balanced ("(" :: inner ++ ")" :: outer).

(** How deep the lists of a structure nest: a string has depth 0, a list
    one more than the deepest of its items. *)
Fixpoint node_depth (n : Node) : nat :=
  match n with
  | Term _ => O
  | Group l => S (list_max (map node_depth l))
  end.

(** The depth of the deepest of the nodes. *)
Definition nesting (nodes : list Node) : nat := list_max (map node_depth nodes).

(** The number of ["("] tokens. *)
Definition opens (tokens : list string) : nat :=
  List.length (filter (fun token => String.eqb token "(") tokens).

(** A query of [n] opening parentheses. *)
Definition open_parens (n : nat) : string := String.concat "" (repeat "(" n).

(** The 256 characters of the model, by code. *)
Definition all_chars_by_code : list ascii := map ascii_of_nat (seq 0 256).

(** The codes of the characters that satisfy [p]. *)
Definition codes_of (p : ascii -> bool) : list nat :=
  map nat_of_ascii (filter p all_chars_by_code).

(** All the groups of a tree, every group after the groups inside it. *)
Fixpoint groups_postorder (tree : Node) : list Node :=
  match tree with
  | Term _ => []
  | Group l => flat_map groups_postorder l ++ [tree]
  end.

Definition children (tree : Node) : list Node :=
  match tree with Group l => l | Term _ => [] end.

(** A minimal group: a group that contains an operator while none of its
    child groups does. *)
Definition is_minimal_group (g : Node) : bool :=
  is_list g && contains_operator g
  && negb (existsb is_operator_group (children g)).

(** The hints as the data model words them: the first of several entries
    is "after", the later ones "before", a lone entry has none. *)
Definition tag_positions (terms : list string) : list OrKeyword :=
  match terms with
  | [] => []
  | [t] => [(t, None)]
  | t :: rest => (t, Some "after") :: map (fun k => (k, Some "before")) rest
  end.

(** Removal of the first occurrence only, as the algorithm description
    words step 3. *)
Definition remove_first (sub s : string) : string :=
  match Str.find sub s with
  | Some n => (Str.take n s ++ Str.drop (n + String.length sub) s)%string
  | None => s
  end.

(** An OR-chain: terms that are not operators, separated by ["OR"]. *)
Fixpoint is_or_chain_items (l : list Node) : bool :=
  match l with
  | [Term t] => negb (is_operator t)
  | Term t :: Term sep :: rest =>
      negb (is_operator t) && String.eqb sep "OR" && is_or_chain_items rest
  | _ => false
  end.

(** A structure that is one OR-chain, possibly inside single-element
    lists. *)
Fixpoint is_or_chain (structure : Node) : bool :=
  match structure with
  | Term _ => false
  | Group [Group _ as inner] => is_or_chain inner
  | Group l => is_or_chain_items l
  end.

(** ** Auxiliary definitions of the proofs *)

(** A token that is a term or an operator. *)
Definition not_paren (token : string) : bool := negb (is_paren token).

(** The runs closed by [depth] closing parentheses. *)
Fixpoint Closes (depth : nat) (tokens : list string) : Prop :=
  match depth with
  | O => Balanced tokens
  | S d =>
      exists inner outer,
        tokens = inner ++ ")" :: outer /\ Balanced inner /\ Closes d outer
  end.

(** The body of the [for elem in tree] loop of
    [get_minimal_operator_groups]. *)
Definition minimal_groups_step (st : bool * list Node) (elem : Node)
  : bool * list Node :=
  match elem with
  | Group _ =>
      if contains_operator elem
      then (true, snd st ++ get_minimal_operator_groups elem)
      else st
  | Term _ => st
  end.

(** What one child contributes to [minimal_groups]. *)
Definition harvest (elem : Node) : list Node :=
  if is_operator_group elem then get_minimal_operator_groups elem else [].

(** The tree [[[a, AND, b], OR, [c, AND, [d, OR, e]]]]. *)
Definition example_tree : Node :=
  Group [Group [Term "a"; Term "AND"; Term "b"];
         Term "OR";
         Group [Term "c"; Term "AND"; Group [Term "d"; Term "OR"; Term "e"]]].

(** What [join_keyword] puts in [modified_list] for one item of a list. *)
Definition join_child (item : Node) : Node :=
  match item with
  | Group _ => join_keyword item
  | Term _ => item
  end.

(** [join_keyword] once [modified_list] is known. *)
Definition join_modified (modified_list : list Node) : Node :=
  if negb (or_in modified_list) && negb (is_list_within modified_list)
  then Term (Str.join " " (map item_str modified_list))
  else Group modified_list.

(** What [get_or_keyword] adds to [keywords_list] for one item. *)
Definition collect_item (item : Node) : list OrKeyword :=
  match item with
  | Group _ => get_or_keyword item
  | Term s => if is_operator s then [] else [(s, None)]
  end.

(** The leaf terms that are not operators, left to right. *)
Definition keyword_terms (structure : Node) : list string :=
  filter (fun t => negb (is_operator t)) (flatten_tokens structure).

(** The parts of a list, reconstructed and joined. *)
Definition joined_parts (l : list Node) : string :=
  Str.join " " (map (fun item => reverse_joined_keywords item false) l).

(** What the reconstruction holds for the keywords of a structure: the
    text of the first keyword before an ["OR"] when there are others, and
    the text of every later keyword behind an ["OR"]. *)
Definition hints_occur (terms : list string) (text : string) : Prop :=
  match terms with
  | [] => False
  | t :: ts =>
      (ts <> [] -> Str.occurs ("(" ++ t ++ ") OR ")%string text)
      /\ (forall u, In u ts -> Str.occurs (" OR (" ++ u ++ ")")%string text)
  end.

(** The flattened structure that [main] builds for the query
    [(a OR b) AND (c OR d)]. *)
Definition two_or_groups : Node :=
  Group [Group [Term "a"; Term "OR"; Term "b"];
         Group [Term "c"; Term "OR"; Term "d"]].

(** In-order subsequences. *)
Inductive Subseq {A : Type} : list A -> list A -> Prop :=
| Subseq_nil : Subseq [] []
| Subseq_skip x l m : Subseq l m -> Subseq l (x :: m)
| Subseq_take x l m : Subseq l m -> Subseq (x :: l) (x :: m).

(** The scripted oracle of the cat/feline scenario: 100 results while one
    of the two terms is left in the query, none otherwise. *)
Definition cat_feline_oracle (q : string) : Z :=
  if Str.contains "cat" q || Str.contains "feline" q then 100%Z else 0%Z.

(** ** [main], from the query text to the results *)

(** [s.lstrip()]: leading whitespace removed. *)
Fixpoint str_lstrip (s : string) : string :=
  match s with
  | EmptyString => EmptyString
  | String c r => if is_space c then str_lstrip r else s
  end.

(** [s.rstrip()]: trailing whitespace removed. *)
Fixpoint str_rstrip (s : string) : string :=
  match s with
  | EmptyString => EmptyString
  | String c r =>
      match str_rstrip r with
      | EmptyString => if is_space c then EmptyString else String c EmptyString
      | r' => String c r'
      end
  end.

(** [s.strip()]. *)
Definition str_strip (s : string) : string := str_lstrip (str_rstrip s).

(** [main] from [args.query] to the arguments it hands to
    [search_pubmed]: the search query and the tagged keywords. *)
Definition main_search_args (args_query : string)
  : option (string * list OrKeyword) :=
  let query_str := str_strip args_query in
  match parse_query query_str with
  | Some parsed_tree =>
      let minimal_groups := get_minimal_operator_groups parsed_tree in
      let joined_keywords := join_keyword (Group minimal_groups) in
      let search_query := reverse_joined_keywords joined_keywords true in
      let or_keyword_list := get_or_keyword joined_keywords in
      Some (search_query, or_keyword_list)
  | None => None
  end.


(** ** Notions on characters *)

Fixpoint all_chars (p : ascii -> bool) (s : string) : bool :=
  match s with
  | EmptyString => true
  | String c r => p c && all_chars p r
  end.

(** The text without its whitespace. *)
Fixpoint remove_spaces (s : string) : string :=
  match s with
  | EmptyString => EmptyString
  | String c r =>
      if is_space c then remove_spaces r else String c (remove_spaces r)
  end.

(** A parenthesis, or a non-empty run of characters that are neither
    whitespace nor parentheses. *)
Definition token_shape (token : string) : bool :=
  String.eqb token "(" || String.eqb token ")"
  || (negb (String.eqb token "") && all_chars is_term_char token).

(** The nesting depth after [s], started at [depth]; [None] when a
    [")"] closes nothing. *)
Fixpoint paren_depth (depth : nat) (s : string) : option nat :=
  match s with
  | EmptyString => Some depth
  | String c r =>
      if Ascii.eqb c "(" then paren_depth (S depth) r
      else if Ascii.eqb c ")" then
        match depth with
        | O => None
        | S d => paren_depth d r
        end
      else paren_depth depth r
  end.

(** A text without any parenthesis. *)
Definition paren_free (s : string) : bool :=
  all_chars (fun c => negb (Ascii.eqb c "(") && negb (Ascii.eqb c ")")) s.


(** A text that leaves every nesting depth as it found it. *)
Definition depth_neutral (s : string) : Prop :=
  forall depth, paren_depth depth s = Some depth.

(** The parentheses of a text are balanced. *)
Definition parens_balanced (s : string) : bool :=
  match paren_depth 0 s with
  | Some O => true
  | _ => false
  end.

(** * Properties *)

(** ** Facts about the string operations *)

Module StrFacts.

Local Open Scope string_scope.

Lemma app_nil_r (s : string) : s ++ "" = s.
Proof. induction s as [|c s IH]; simpl; [reflexivity | now rewrite IH]. Qed.

Lemma app_assoc (s t u : string) : (s ++ t) ++ u = s ++ t ++ u.
Proof. induction s as [|c s IH]; simpl; [reflexivity | now rewrite IH]. Qed.

Lemma drop_app (s t : string) : Str.drop (String.length s) (s ++ t) = t.
Proof. induction s as [|c s IH]; simpl; auto. Qed.

Lemma prefix_app (sub post : string) : String.prefix sub (sub ++ post) = true.
Proof.
  induction sub as [|c sub IH]; simpl.
  - now destruct post.
  - destruct (ascii_dec c c) as [_|ne]; [exact IH | now elim ne].
Qed.

Lemma prefix_inv (sub s : string) :
  String.prefix sub s = true -> s = sub ++ Str.drop (String.length sub) s.
Proof.
  revert s; induction sub as [|c sub IH]; intros s H.
  - now destruct s.
  - destruct s as [|d s]; simpl in H; [discriminate|].
    destruct (ascii_dec c d) as [->|_]; [|discriminate].
    simpl. f_equal. now apply IH.
Qed.

(** [find] returns the position of an occurrence. *)
Lemma find_Some (sub s : string) (n : nat) :
  Str.find sub s = Some n ->
  s = Str.take n s ++ sub ++ Str.drop (n + String.length sub) s.
Proof.
  revert n; induction s as [|c s IH]; intros n; cbn [Str.find].
  - destruct (String.prefix sub "") eqn:E; [|discriminate].
    intros [= <-]. simpl. now apply prefix_inv.
  - destruct (String.prefix sub (String c s)) eqn:E.
    + intros [= <-]. simpl Str.take. now apply prefix_inv.
    + destruct (Str.find sub s) as [m|] eqn:F; simpl; [|discriminate].
      intros [= <-]. simpl. f_equal. now apply IH.
Qed.

(** [find] misses no occurrence. *)
Lemma find_None (sub s : string) :
  Str.find sub s = None -> ~ Str.occurs sub s.
Proof.
  induction s as [|c s IH]; cbn [Str.find].
  - destruct (String.prefix sub "") eqn:E; [discriminate|].
    intros _ (pre & post & H).
    destruct pre; [|discriminate].
    simpl in H. rewrite H, prefix_app in E. discriminate.
  - destruct (String.prefix sub (String c s)) eqn:E; [discriminate|].
    destruct (Str.find sub s) eqn:F; simpl; [discriminate|].
    intros _ (pre & post & H).
    destruct pre as [|d pre].
    + simpl in H. rewrite H, prefix_app in E. discriminate.
    + simpl in H. injection H as _ H. apply IH; [reflexivity|].
      now exists pre, post.
Qed.

(** [sub in s] decides the occurrence of [sub] in [s]. *)
Lemma contains_occurs (sub s : string) :
  Str.contains sub s = true <-> Str.occurs sub s.
Proof.
  unfold Str.contains. destruct (Str.find sub s) as [n|] eqn:F; split.
  - intros _. exists (Str.take n s), (Str.drop (n + String.length sub) s).
    now apply find_Some.
  - reflexivity.
  - discriminate.
  - intros H. now apply find_None in F.
Qed.

Lemma occurs_wrap (sub pre s post : string) :
  Str.occurs sub s -> Str.occurs sub (pre ++ s ++ post).
Proof.
  intros (a & b & ->). exists (pre ++ a), (b ++ post).
  now rewrite !app_assoc.
Qed.

(** Characters still to be skipped are dropped from the text. *)
Lemma replace_scan_skip (old new : string) (k : nat) (s : string) :
  Str.replace_scan old new k s = Str.replace_scan old new 0 (Str.drop k s).
Proof.
  revert k; induction s as [|c s IH]; intros [|k]; try reflexivity.
  simpl Str.drop. rewrite <- IH. reflexivity.
Qed.

(** The scan of [replace], unfolded at the leftmost occurrence. *)
Lemma replace_scan_find (c : ascii) (old' new s : string) :
  let old := String c old' in
  Str.replace_scan old new 0 s =
    match Str.find old s with
    | None => s
    | Some n =>
        Str.take n s ++ new
        ++ Str.replace_scan old new 0 (Str.drop (n + String.length old) s)
    end.
Proof.
  intros old. induction s as [|d s IH].
  - reflexivity.
  - cbn [Str.replace_scan Str.find].
    destruct (String.prefix old (String d s)) eqn:E.
    + cbn [Str.take append]. rewrite replace_scan_skip.
      subst old. cbn [String.length Nat.sub Nat.add Str.drop].
      now rewrite Nat.sub_0_r.
    + rewrite IH. destruct (Str.find old s) as [n|]; reflexivity.
Qed.

End StrFacts.

(** ** The elimination loop of [search_pubmed] *)

(** The text to remove is never empty. *)
Lemma replace_text_nonempty (or_keyword : OrKeyword) :
  exists c r, replace_text or_keyword = String c r.
Proof.
  destruct or_keyword as [t [h|]]; unfold replace_text; cbn [fst snd].
  - destruct (String.eqb h "before"); [|destruct (String.eqb h "after")];
      cbn; eauto.
  - cbn; eauto.
Qed.

(** A query that does not contain the text is left as it is. *)
Lemma new_query_absent (current_query : string) (or_keyword : OrKeyword) :
  Str.contains (replace_text or_keyword) current_query = false ->
  new_query current_query or_keyword = current_query.
Proof.
  unfold new_query, Str.contains. intros H.
  destruct (replace_text_nonempty or_keyword) as (c & r & E).
  rewrite E in *. unfold Str.replace.
  rewrite (StrFacts.replace_scan_find c r "" current_query).
  now destruct (Str.find (String c r) current_query).
Qed.

(** C2, as the code has it: [new_query] is the current query with every
    occurrence of the hinted text removed, scanning from the left past
    each removed occurrence; a query without the text is unchanged. *)
Theorem new_query_removes_every_occurrence
  (current_query : string) (or_keyword : OrKeyword) :
  new_query current_query or_keyword =
    match Str.find (replace_text or_keyword) current_query with
    | None => current_query
    | Some n =>
        (Str.take n current_query
         ++ new_query
              (Str.drop (n + String.length (replace_text or_keyword))
                        current_query)
              or_keyword)%string
    end.
Proof.
  unfold new_query.
  destruct (replace_text_nonempty or_keyword) as (c & r & E).
  rewrite E. unfold Str.replace.
  now rewrite (StrFacts.replace_scan_find c r "" current_query) at 1.
Qed.

(** C2 fails as stated: in the query rebuilt from [a OR a OR b] the text
    of the first keyword occurs twice and both occurrences go, where the
    removal of the first occurrence alone keeps one. *)
Lemma new_query_not_first_occurrence_only :
  new_query "((a) OR (a) OR (b))" ("a", Some "after") = "((b))"
  /\ remove_first (replace_text ("a", Some "after")) "((a) OR (a) OR (b))"
     = "((a) OR (b))"
  /\ new_query "((a) OR (a) OR (b))" ("a", Some "after")
     <> remove_first (replace_text ("a", Some "after")) "((a) OR (a) OR (b))".
Proof. repeat split; try reflexivity. vm_compute. discriminate. Qed.

Lemma Subseq_snoc_skip {A : Type} (x : A) (l m : list A) :
  Subseq l m -> Subseq l (m ++ [x]).
Proof.
  induction 1; simpl.
  - apply Subseq_skip, Subseq_nil.
  - now apply Subseq_skip.
  - now apply Subseq_take.
Qed.

Lemma Subseq_snoc_take {A : Type} (x : A) (l m : list A) :
  Subseq l m -> Subseq (l ++ [x]) (m ++ [x]).
Proof.
  induction 1; simpl.
  - apply Subseq_take, Subseq_nil.
  - now apply Subseq_skip.
  - now apply Subseq_take.
Qed.

Lemma firstn_succ_nth {A : Type} (l : list A) (k : nat) (x : A) :
  nth_error l k = Some x -> firstn (S k) l = firstn k l ++ [x].
Proof.
  revert k; induction l as [|y l IH]; intros [|k]; simpl; try discriminate.
  - now intros [= ->].
  - intros H. f_equal. now apply IH.
Qed.

Section SearchPubmedFacts.

Variable perform_search : string -> Z.
Variable query : string.

Lemma search_loop_snoc (done : list OrKeyword) (or_keyword : OrKeyword) :
  search_loop perform_search query (done ++ [or_keyword])
  = search_step perform_search (perform_search query)
      (search_loop perform_search query done) or_keyword.
Proof. unfold search_loop. now rewrite fold_left_app. Qed.

(** The count of the current query is the baseline count, whatever
    keywords have been processed. *)
Lemma search_loop_count (done : list OrKeyword) :
  perform_search (snd (search_loop perform_search query done))
= perform_search query.
Proof.
  induction done as [|or_keyword done IH] using rev_ind.
  - reflexivity.
  - rewrite search_loop_snoc.
    destruct (search_loop perform_search query done) as [excluded current].
    unfold search_step.
    destruct (Z.eqb_spec (perform_search (new_query current or_keyword))
                         (perform_search query)) as [E|_].
    + exact E.
    + exact IH.
Qed.

Lemma search_loop_excluded (done : list OrKeyword) :
  Subseq (fst (search_loop perform_search query done)) (map fst done).
Proof.
  induction done as [|or_keyword done IH] using rev_ind.
  - apply Subseq_nil.
  - rewrite search_loop_snoc, map_app.
    destruct (search_loop perform_search query done) as [excluded current].
    unfold search_step.
    destruct (Z.eqb (perform_search (new_query current or_keyword))
                    (perform_search query)); cbn [fst map] in *.
    + now apply Subseq_snoc_take.
    + now apply Subseq_snoc_skip.
Qed.

(** A keyword whose text is absent from the current query is excluded
    and the query stays as it is. *)
Lemma search_loop_absent (done : list OrKeyword) (or_keyword : OrKeyword) :
  Str.contains (replace_text or_keyword)
               (snd (search_loop perform_search query done)) = false ->
  search_loop perform_search query (done ++ [or_keyword])
  = (fst (search_loop perform_search query done) ++ [fst or_keyword],
     snd (search_loop perform_search query done)).
Proof.
  intros H. rewrite search_loop_snoc.
  pose proof (search_loop_count done) as C.
  destruct (search_loop perform_search query done) as [excluded current].
  cbn [fst snd] in *.
  unfold search_step. rewrite (new_query_absent _ _ H), C, Z.eqb_refl.
  reflexivity.
Qed.

End SearchPubmedFacts.

(** C10: with the oracle a function of the query string, the current query
    has the baseline count at the start of every iteration; the excluded
    keywords returned are an in-order subsequence of the tagged keywords;
    and a keyword whose hinted text is absent from the current query is
    appended to the excluded keywords while the query stays unchanged. *)
Theorem search_pubmed_invariant
  (perform_search : string -> Z) (query : string) (or_keywords : list OrKeyword) :
  (forall k,
      perform_search (snd (search_loop perform_search query (firstn k or_keywords)))
      = fst (fst (search_pubmed perform_search query or_keywords)))
  /\ Subseq (snd (search_pubmed perform_search query or_keywords))
            (map fst or_keywords)
  /\ (forall k or_keyword,
         nth_error or_keywords k = Some or_keyword ->
         let st := search_loop perform_search query (firstn k or_keywords) in
         Str.contains (replace_text or_keyword) (snd st) = false ->
         search_loop perform_search query (firstn (S k) or_keywords)
         = (fst st ++ [fst or_keyword], snd st)).
Proof.
  assert (R : fst (fst (search_pubmed perform_search query or_keywords))
              = perform_search query).
  { unfold search_pubmed.
    now destruct (search_loop perform_search query or_keywords). }
  repeat split.
  - intros k. rewrite R. apply search_loop_count.
  - pose proof (search_loop_excluded perform_search query or_keywords) as H.
    unfold search_pubmed.
    now destruct (search_loop perform_search query or_keywords).
  - intros k or_keyword Hk st Habs.
    rewrite (firstn_succ_nth _ _ _ Hk).
    now apply search_loop_absent.
Qed.

(** C10 at work: after ["(cat) OR "] is removed, [" OR (feline)"] no longer
    occurs, and ["feline"] is excluded with the query left as it is. *)
Lemma search_pubmed_invariant_witness :
  search_loop cat_feline_oracle "(cat) OR (feline)"
    (firstn 2 [("cat", Some "after"); ("feline", Some "before")])
  = (["cat"; "feline"], "(feline)").
Proof.
  exact (proj2 (proj2 (search_pubmed_invariant cat_feline_oracle
                         "(cat) OR (feline)"
                         [("cat", Some "after"); ("feline", Some "before")]))
           1%nat ("feline", Some "before") eq_refl eq_refl).
Defined.

(** ** Minimal operator groups *)

Lemma minimal_groups_fold (l : list Node) (flag : bool) (acc : list Node) :
  fold_left minimal_groups_step l (flag, acc)
  = (flag || existsb is_operator_group l, acc ++ flat_map harvest l).
Proof.
  revert flag acc; induction l as [|elem l IH]; intros flag acc; simpl.
  - now rewrite orb_false_r, app_nil_r.
  - unfold harvest at 1.
    destruct elem as [s|items]; cbn [minimal_groups_step].
    + change (is_operator_group (Term s)) with false. now rewrite IH.
    + change (is_operator_group (Group items))
        with (contains_operator (Group items)).
      destruct (contains_operator (Group items)); rewrite IH; cbn [snd orb].
      * now rewrite orb_true_r, app_assoc.
      * reflexivity.
Qed.

Lemma get_minimal_operator_groups_Group (l : list Node) :
  get_minimal_operator_groups (Group l)
  = if contains_operator (Group l)
    then flat_map harvest l
         ++ (if existsb is_operator_group l then [] else [Group l])
    else [].
Proof.
  change (get_minimal_operator_groups (Group l))
    with (if contains_operator (Group l)
          then let '(child_has_operator, minimal_groups) :=
                 fold_left minimal_groups_step l (false, []) in
               if negb child_has_operator then minimal_groups ++ [Group l]
               else minimal_groups
          else []).
  rewrite minimal_groups_fold. cbn [orb app].
  destruct (contains_operator (Group l)); [|reflexivity].
  destruct (existsb is_operator_group l); cbn [negb].
  - now rewrite app_nil_r.
  - reflexivity.
Qed.

Lemma filter_flat_map {A B : Type} (f : B -> bool) (g : A -> list B) (l : list A) :
  filter f (flat_map g l) = flat_map (fun x => filter f (g x)) l.
Proof.
  induction l as [|x l IH]; simpl; [reflexivity|].
  now rewrite filter_app, IH.
Qed.

Lemma flat_map_Forall_eq {A B : Type} (f g : A -> list B) (l : list A) :
  Forall (fun x => f x = g x) l -> flat_map f l = flat_map g l.
Proof. induction 1 as [|x l E _ IH]; simpl; [reflexivity | now rewrite E, IH]. Qed.

(** A tree without operator has no minimal group inside. *)
Lemma no_operator_no_minimal (tree : Node) :
  contains_operator tree = false ->
  filter is_minimal_group (groups_postorder tree) = [].
Proof.
  induction tree as [s|l IH] using Node_rect'; intros C; [reflexivity|].
  cbn [groups_postorder]. rewrite filter_app, filter_flat_map.
  cbn [filter]. unfold is_minimal_group at 2. rewrite C. cbn [is_list andb].
  rewrite app_nil_r.
  cbn [contains_operator] in C.
  induction l as [|elem l IHl]; [reflexivity|].
  cbn [existsb] in C. apply orb_false_iff in C as [Ce Cl].
  inversion IH as [|? ? He Hl]; subst.
  cbn [flat_map]. rewrite (IHl Hl Cl), app_nil_r.
  destruct elem as [s|items]; [reflexivity | now apply He].
Qed.

(** The groups returned are the minimal groups of the tree, in the order
    in which a traversal that leaves a group after its inner groups meets
    them. *)
Lemma minimal_groups_postorder (tree : Node) :
  get_minimal_operator_groups tree
  = filter is_minimal_group (groups_postorder tree).
Proof.
  induction tree as [s|l IH] using Node_rect'; [reflexivity|].
  rewrite get_minimal_operator_groups_Group.
  destruct (contains_operator (Group l)) eqn:C.
  - cbn [groups_postorder]. rewrite filter_app, filter_flat_map.
    cbn [filter]. unfold is_minimal_group at 2. rewrite C.
    cbn [is_list andb children].
    f_equal.
    + apply flat_map_Forall_eq.
      eapply Forall_impl; [|exact IH]. intros elem E. unfold harvest.
      destruct (is_operator_group elem) eqn:O; [exact E|].
      symmetry. destruct elem as [s|items]; [reflexivity|].
      now apply no_operator_no_minimal.
    + now destruct (existsb is_operator_group l).
  - symmetry. now apply no_operator_no_minimal.
Qed.

(** C3: on the example tree the extractor returns [a AND b] and [d OR e]
    and not the outer group; on every tree each returned group contains an
    operator while none of its child groups does, and the groups come in
    the order of a traversal that visits every group after the groups
    inside it, so a deeper group precedes the groups that enclose it. *)
Theorem get_minimal_operator_groups_minimal :
  get_minimal_operator_groups example_tree
  = [Group [Term "a"; Term "AND"; Term "b"];
     Group [Term "d"; Term "OR"; Term "e"]]
  /\ (forall tree,
         Forall (fun g =>
                   contains_operator g = true
                   /\ Forall (fun child => is_operator_group child = false)
                        (children g))
           (get_minimal_operator_groups tree))
  /\ (forall tree,
         get_minimal_operator_groups tree
         = filter is_minimal_group (groups_postorder tree)).
Proof.
  split; [reflexivity|]. split; [|exact minimal_groups_postorder].
  intros tree. rewrite minimal_groups_postorder.
  apply Forall_forall. intros g Hg. apply filter_In in Hg as [_ M].
  unfold is_minimal_group in M.
  apply andb_true_iff in M as [M N]. apply andb_true_iff in M as [_ M].
  split; [exact M|].
  apply Forall_forall. intros child Hc.
  apply negb_true_iff in N.
  destruct (is_operator_group child) eqn:C; [|reflexivity].
  assert (existsb is_operator_group (children g) = true) as X; [|congruence].
  apply existsb_exists. now exists child.
Qed.

(** ** The flattener *)

Lemma join_keyword_Group (l : list Node) :
  join_keyword (Group l) = join_modified (map join_child l).
Proof. reflexivity. Qed.

Lemma join_keyword_Term (s : string) :
  join_keyword (Term s) = join_modified [Term s].
Proof. reflexivity. Qed.

Lemma or_in_false (m : list Node) :
  or_in m = false <-> ~ In (Term "OR") m.
Proof.
  unfold or_in. split.
  - intros H Hin.
    assert (existsb (fun x => match x with
                              | Term s => String.eqb "OR" s
                              | Group _ => false
                              end) m = true) as X; [|congruence].
    apply existsb_exists. now exists (Term "OR").
  - intros H. apply not_true_is_false. intros X.
    apply existsb_exists in X as (x & Hin & Hx).
    destruct x as [s|items]; [|discriminate].
    apply String.eqb_eq in Hx. subst s. contradiction.
Qed.

Lemma is_list_within_false (m : list Node) :
  is_list_within m = false <-> Forall (fun x => is_list x = false) m.
Proof.
  unfold is_list_within. induction m as [|x m IH]; simpl.
  - split; auto.
  - rewrite orb_false_iff, IH. split.
    + intros [? ?]. now constructor.
    + now inversion 1.
Qed.

(** Under the guard of the join every item is a string. *)
Lemma item_str_Term (m : list Node) :
  Forall (fun x => is_list x = false) m -> map Term (map item_str m) = m.
Proof.
  induction 1 as [|x m Hx _ IH]; simpl; [reflexivity|].
  rewrite IH. now destruct x.
Qed.

(** C4, as the code has it: the flattened children of a list are joined
    with single spaces into one string if and only if no child is the
    string ["OR"] itself, compared exactly, and no child is a list;
    otherwise the list of flattened children is returned. *)
Theorem join_keyword_joins_iff (l : list Node) :
  let modified_list := map join_child l in
  let joinable :=
    ~ In (Term "OR") modified_list
    /\ Forall (fun x => is_list x = false) modified_list in
  (joinable <->
     exists strs, modified_list = map Term strs
                  /\ join_keyword (Group l) = Term (Str.join " " strs))
  /\ (~ joinable <-> join_keyword (Group l) = Group modified_list).
Proof.
  intros m joinable. rewrite join_keyword_Group. fold m.
  unfold join_modified, joinable.
  destruct (or_in m) eqn:O; cbn [negb andb].
  - assert (~ (~ In (Term "OR") m /\ Forall (fun x => is_list x = false) m)) as N.
    { intros [H _]. apply or_in_false in H. congruence. }
    split; split; auto.
    + intros H. contradiction.
    + intros (strs & _ & H). discriminate.
  - apply or_in_false in O.
    destruct (is_list_within m) eqn:L; cbn [negb].
    + assert (~ (~ In (Term "OR") m /\ Forall (fun x => is_list x = false) m)) as N.
      { intros [_ H]. apply is_list_within_false in H. congruence. }
      split; split; auto.
      * intros H. contradiction.
      * intros (strs & _ & H). discriminate.
    + apply is_list_within_false in L. split; split.
      * intros _. exists (map item_str m). split; [|reflexivity].
        symmetry. now apply item_str_Term.
      * intros _. now split.
      * intros N. elim N. now split.
      * discriminate.
Qed.

(** The theorem at work on [[a, AND, b]] and on [[a, OR, b]]. *)
Lemma join_keyword_joins_iff_witness :
  (exists strs,
      [Term "a"; Term "AND"; Term "b"] = map Term strs
      /\ join_keyword (Group [Term "a"; Term "AND"; Term "b"])
         = Term (Str.join " " strs))
  /\ join_keyword (Group [Term "a"; Term "OR"; Term "b"])
     = Group [Term "a"; Term "OR"; Term "b"].
Proof.
  split.
  - apply (proj1 (join_keyword_joins_iff [Term "a"; Term "AND"; Term "b"])).
    split.
    + simpl. intros [H|[H|[H|[]]]]; discriminate.
    + repeat constructor.
  - apply (proj2 (join_keyword_joins_iff [Term "a"; Term "OR"; Term "b"])).
    intros [H _]. apply H. simpl. auto.
Defined.

(** C4 fails as stated: a lowercase ["or"], which equals ["OR"] once
    upper-cased, does not keep the children from being joined. *)
Lemma join_keyword_lowercase_or_joined :
  Str.upper "or" = "OR"
  /\ join_keyword (Group [Term "a"; Term "or"; Term "b"]) = Term "a or b".
Proof. split; reflexivity. Qed.

(** A join with spaces gives ["OR"] only from the list [["OR"]]. *)
Lemma join_is_OR (strs : list string) :
  Str.join " " strs = "OR" -> strs = ["OR"].
Proof.
  unfold Str.join. destruct strs as [|x [|y r]]; cbn [String.concat].
  - discriminate.
  - now intros ->.
  - destruct x as [|c1 [|c2 [|c3 x]]]; cbn; discriminate.
Qed.

Lemma join_modified_fixed (m : list Node) :
  map join_child m = m -> join_keyword (join_modified m) = join_modified m.
Proof.
  intros Hm. unfold join_modified.
  destruct (or_in m) eqn:O; cbn [negb andb].
  - rewrite join_keyword_Group, Hm. unfold join_modified. now rewrite O.
  - destruct (is_list_within m) eqn:L; cbn [negb].
    + rewrite join_keyword_Group, Hm. unfold join_modified.
      now rewrite O, L.
    + rewrite join_keyword_Term. unfold join_modified.
      cbn [or_in existsb is_list_within is_list orb map item_str Str.join
           String.concat].
      destruct (String.eqb_spec "OR" (Str.join " " (map item_str m)))
        as [E|_]; [|reflexivity].
      exfalso. symmetry in E. apply join_is_OR in E.
      apply is_list_within_false, item_str_Term in L.
      rewrite E in L. rewrite <- L in O. discriminate.
Qed.

(** C9: flattening is idempotent. *)
Theorem join_keyword_idempotent (structure : Node) :
  join_keyword (join_keyword structure) = join_keyword structure.
Proof.
  induction structure as [s|l IH] using Node_rect'.
  - rewrite join_keyword_Term. now apply join_modified_fixed.
  - rewrite join_keyword_Group. apply join_modified_fixed.
    rewrite map_map. apply map_ext_Forall.
    eapply Forall_impl; [|exact IH]. intros item E.
    destruct item as [s|items]; [reflexivity|].
    cbn [join_child]. destruct (join_keyword (Group items)) eqn:J;
      [reflexivity | exact E].
Qed.

(** ** The OR-keyword tagger *)

Lemma get_or_keyword_Group (l : list Node) :
  get_or_keyword (Group l) = position_hints (flat_map collect_item l).
Proof. reflexivity. Qed.

(** The hints only look at the keywords, not at the hints of inner calls. *)
Lemma position_hints_tag (keywords_list : list OrKeyword) :
  position_hints keywords_list = tag_positions (map fst keywords_list).
Proof.
  destruct keywords_list as [|k1 [|k2 r]]; try reflexivity.
  cbn. now rewrite map_map.
Qed.

Lemma map_fst_tag_positions (terms : list string) :
  map fst (tag_positions terms) = terms.
Proof.
  destruct terms as [|t1 [|t2 r]]; try reflexivity.
  cbn. rewrite map_map. cbn. now rewrite map_id.
Qed.

Lemma map_flat_map {A B C : Type} (f : B -> C) (g : A -> list B) (l : list A) :
  map f (flat_map g l) = flat_map (fun x => map f (g x)) l.
Proof.
  induction l as [|x l IH]; simpl; [reflexivity|].
  now rewrite map_app, IH.
Qed.

(** The tagger tags the keyword terms of the structure. *)
Lemma get_or_keyword_keyword_terms (structure : Node) :
  get_or_keyword structure = tag_positions (keyword_terms structure).
Proof.
  unfold keyword_terms.
  induction structure as [s|l IH] using Node_rect'.
  - cbn. now destruct (is_operator s).
  - rewrite get_or_keyword_Group, position_hints_tag. f_equal.
    cbn [flatten_tokens]. rewrite map_flat_map, filter_flat_map.
    apply flat_map_Forall_eq.
    eapply Forall_impl; [|exact IH]. intros item E.
    destruct item as [s|items].
    + cbn. now destruct (is_operator s).
    + cbn [collect_item]. rewrite E. apply map_fst_tag_positions.
Qed.

(** C6: the tagger returns the leaf terms that are not operators, in
    left-to-right depth-first order, the first tagged "after" and the
    later ones "before" when there are several, a lone one without
    hint. *)
Theorem get_or_keyword_tags (structure : Node) :
  get_or_keyword structure
  = tag_positions
      (filter (fun t => negb (is_operator t)) (flatten_tokens structure))
  /\ map fst (get_or_keyword structure)
     = filter (fun t => negb (is_operator t)) (flatten_tokens structure)
  /\ (forall t, get_or_keyword (Group [Term t])
                = if is_operator t then [] else [(t, None)])
  /\ get_or_keyword (Group [Term "a"; Term "OR"; Group [Term "b"; Term "and"; Term "c"]])
     = [("a", Some "after"); ("b", Some "before"); ("c", Some "before")].
Proof.
  split; [apply get_or_keyword_keyword_terms|]. split; [|split].
  - rewrite get_or_keyword_keyword_terms. apply map_fst_tag_positions.
  - intros t. cbn. now destruct (is_operator t).
  - reflexivity.
Qed.

(** ** Reconstruction against the tagger *)

Ltac str_norm := repeat (rewrite ?StrFacts.app_assoc; cbn [append]).

Lemma reverse_joined_keywords_Group (l : list Node) (top_level : bool) :
  reverse_joined_keywords (Group l) top_level
  = if negb top_level then ("(" ++ joined_parts l ++ ")")%string
    else joined_parts l.
Proof. reflexivity. Qed.

Lemma is_or_chain_items_ind (P : list Node -> Prop) :
  (forall t, is_operator t = false -> P [Term t]) ->
  (forall t rest,
      is_operator t = false -> is_or_chain_items rest = true -> P rest ->
      P (Term t :: Term "OR" :: rest)) ->
  forall l, is_or_chain_items l = true -> P l.
Proof.
  intros H1 H2.
  assert (forall n l, (List.length l <= n)%nat ->
                      is_or_chain_items l = true -> P l) as G.
  { induction n as [|n IH]; intros l Hlen Hc.
    - destruct l; [discriminate | simpl in Hlen; lia].
    - destruct l as [|[t|?] [|[sep|?] rest]]; try discriminate.
      + apply H1. cbn in Hc. now apply negb_true_iff in Hc.
      + cbn [is_or_chain_items] in Hc.
        apply andb_true_iff in Hc as [Hc Hr].
        apply andb_true_iff in Hc as [Ht Hs].
        apply negb_true_iff in Ht. apply String.eqb_eq in Hs. subst sep.
        apply H2; auto. apply IH; [simpl in Hlen; lia | exact Hr]. }
  intros l. now apply (G (List.length l)).
Qed.

Lemma hints_occur_wrap (terms : list string) (pre text post : string) :
  hints_occur terms text -> hints_occur terms (pre ++ text ++ post)%string.
Proof.
  destruct terms as [|t ts]; [auto|]. intros [H1 H2]. split.
  - intros N. now apply StrFacts.occurs_wrap, H1.
  - intros u Hu. now apply StrFacts.occurs_wrap, H2.
Qed.

Lemma or_chain_items_render (l : list Node) :
  is_or_chain_items l = true ->
  exists t ts post,
    keyword_terms (Group l) = t :: ts
    /\ joined_parts l = ("(" ++ t ++ ")" ++ post)%string
    /\ hints_occur (t :: ts) (joined_parts l).
Proof.
  intros H. pattern l. apply is_or_chain_items_ind; [| |exact H]; clear l H.
  - intros t Ht. exists t, [], ""%string. unfold keyword_terms, joined_parts.
    cbn. rewrite Ht. cbn. repeat split.
    + intros N. now elim N.
    + intros u [].
  - intros t rest Ht Hr (t' & ts' & post' & Ek & Ej & Hh & Hb).
    exists t, (t' :: ts'), (" OR " ++ joined_parts rest)%string.
    assert (joined_parts (Term t :: Term "OR" :: rest)
            = ("(" ++ t ++ ") OR " ++ joined_parts rest)%string) as E.
    { unfold joined_parts. destruct rest as [|x rest]; [discriminate|].
      cbn [map Str.join String.concat reverse_joined_keywords].
      rewrite Ht. change (is_operator "OR") with true. cbn iota.
      now str_norm. }
    repeat split.
    + unfold keyword_terms in *. cbn [flatten_tokens flat_map app filter] in *.
      rewrite Ht. change (is_operator "OR") with true. cbn [negb].
      now rewrite Ek.
    + rewrite E. now str_norm.
    + intros _. rewrite E. exists ""%string, (joined_parts rest).
      now str_norm.
    + intros u [<-|Hu].
      * rewrite E, Ej. exists ("(" ++ t ++ ")")%string, post'. now str_norm.
      * rewrite E.
        pose proof (StrFacts.occurs_wrap _ ("(" ++ t ++ ") OR ")%string _
                      ""%string (Hb u Hu)) as X.
        rewrite StrFacts.app_nil_r in X. revert X. now str_norm.
Qed.

Lemma or_chain_render (structure : Node) :
  is_or_chain structure = true ->
  hints_occur (keyword_terms structure)
              (reverse_joined_keywords structure true).
Proof.
  induction structure as [s|l IH] using Node_rect'; [discriminate|].
  intros H. rewrite reverse_joined_keywords_Group. cbn [negb].
  destruct l as [|[t|inner] l'].
  - discriminate.
  - destruct (or_chain_items_render _ H) as (t' & ts & post & -> & _ & Hh).
    exact Hh.
  - destruct l' as [|x l'']; [|discriminate].
    inversion IH as [|? ? Hi _]; subst.
    cbn [is_or_chain] in H. specialize (Hi H).
    unfold keyword_terms in *. cbn [flatten_tokens flat_map] in *.
    rewrite app_nil_r.
    unfold joined_parts. cbn [map Str.join String.concat].
    rewrite reverse_joined_keywords_Group in *. cbn [negb] in *.
    now apply hints_occur_wrap.
Qed.

(** C1, as the code has it: for a flattened structure that is one
    OR-chain (terms that are not operators separated by ["OR"], possibly
    inside single-element lists) the hinted text of every keyword tagged
    "before" or "after" occurs in the reconstructed query. *)
Theorem or_chain_hints_occur (structure : Node) (or_keyword : OrKeyword) :
  is_or_chain structure = true ->
  In or_keyword (get_or_keyword structure) ->
  snd or_keyword = Some "before" \/ snd or_keyword = Some "after" ->
  Str.contains (replace_text or_keyword)
               (reverse_joined_keywords structure true) = true.
Proof.
  intros Hc Hin Hh. apply StrFacts.contains_occurs.
  apply or_chain_render in Hc. rewrite get_or_keyword_keyword_terms in Hin.
  destruct (keyword_terms structure) as [|t [|t2 ts]]; [contradiction| |].
  - destruct Hin as [<-|[]]. destruct Hh; discriminate.
  - destruct Hc as [H1 H2]. cbn [tag_positions In] in Hin.
    destruct Hin as [<-|Hin].
    + apply H1. discriminate.
    + apply in_map_iff in Hin as (u & <- & Hu). now apply H2.
Qed.

(** The structure that [main] builds for the query [a OR b]. *)
Lemma or_chain_hints_occur_witness :
  Str.contains " OR (b)" "((a) OR (b))" = true.
Proof.
  exact (or_chain_hints_occur
           (Group [Group [Term "a"; Term "OR"; Term "b"]])
           ("b", Some "before")
           eq_refl (or_intror (or_introl eq_refl)) (or_introl eq_refl)).
Defined.

(** C1 fails as stated: the tagger gives ["c"] the hint "before", and
    [" OR (c)"] does not occur in the reconstructed query. *)
Lemma hinted_text_absent :
  option_map (fun tree => join_keyword (Group (get_minimal_operator_groups tree)))
             (parse_query "(a OR b) AND (c OR d)") = Some two_or_groups
  /\ join_keyword two_or_groups = two_or_groups
  /\ get_or_keyword two_or_groups
     = [("a", Some "after"); ("b", Some "before");
        ("c", Some "before"); ("d", Some "before")]
  /\ reverse_joined_keywords two_or_groups true = "((a) OR (b)) ((c) OR (d))"
  /\ Str.contains (replace_text ("c", Some "before"))
                  (reverse_joined_keywords two_or_groups true) = false.
Proof.
  repeat split; reflexivity.
Qed.

(** ** The tree parser *)

(** With more fuel than tokens the loop returns, and leaves no more
    tokens than it was given. *)
Lemma parse_tokens_loop_total (fuel : nat) :
  forall tokens tree,
    (List.length tokens < fuel)%nat ->
    exists tree' rest,
      parse_tokens_loop fuel tokens tree = Some (tree', rest)
      /\ (List.length rest <= List.length tokens)%nat.
Proof.
  induction fuel as [|fuel IH]; intros tokens tree Hlen; [lia|].
  destruct tokens as [|token tokens]; cbn [parse_tokens_loop].
  - now exists tree, [].
  - simpl in Hlen.
    destruct (String.eqb token "(").
    + destruct (IH tokens [] ltac:(lia)) as (sub & rest & -> & Hr).
      destruct (IH rest (tree ++ [Group sub]) ltac:(lia))
        as (tree' & rest' & -> & Hr').
      exists tree', rest'. split; [reflexivity | simpl; lia].
    + destruct (String.eqb token ")").
      * exists tree, tokens. split; [reflexivity | simpl; lia].
      * destruct (IH tokens (tree ++ [Term token]) ltac:(lia))
          as (tree' & rest' & -> & Hr').
        exists tree', rest'. split; [reflexivity | simpl; lia].
Qed.

(** One turn of the loop. *)
Lemma parse_tokens_loop_step (fuel : nat) (token : string)
      (tokens : list string) (tree : list Node) :
  parse_tokens_loop (S fuel) (token :: tokens) tree
  = if String.eqb token "(" then
      match parse_tokens_loop fuel tokens [] with
      | Some (subtree, rest) =>
          parse_tokens_loop fuel rest (tree ++ [Group subtree])
      | None => None
      end
    else if String.eqb token ")" then Some (tree, tokens)
    else parse_tokens_loop fuel tokens (tree ++ [Term token]).
Proof. reflexivity. Qed.

(** A result does not change with more fuel. *)
Lemma parse_tokens_loop_mono (fuel : nat) :
  forall tokens tree r,
    parse_tokens_loop fuel tokens tree = Some r ->
    parse_tokens_loop (S fuel) tokens tree = Some r.
Proof.
  induction fuel as [|fuel IH]; intros tokens tree r H; [discriminate|].
  destruct tokens as [|token tokens]; [exact H|].
  rewrite parse_tokens_loop_step in H. rewrite parse_tokens_loop_step.
  destruct (String.eqb token "(").
  - destruct (parse_tokens_loop fuel tokens []) as [[sub rest]|] eqn:E;
      [|discriminate].
    rewrite (IH _ _ _ E). now apply IH.
  - destruct (String.eqb token ")"); [exact H | now apply IH].
Qed.

Lemma parse_tokens_loop_fuel (fuel fuel' : nat) (tokens : list string)
      (tree : list Node) :
  (List.length tokens < fuel)%nat -> (List.length tokens < fuel')%nat ->
  parse_tokens_loop fuel tokens tree = parse_tokens_loop fuel' tokens tree.
Proof.
  assert (forall f g, (f <= g)%nat -> (List.length tokens < f)%nat ->
                      parse_tokens_loop f tokens tree
                      = parse_tokens_loop g tokens tree) as G.
  { intros f g Hfg Hf.
    destruct (parse_tokens_loop_total f tokens tree Hf) as (t & r & E & _).
    rewrite E. symmetry.
    induction Hfg as [|g Hfg IH]; [exact E | now apply parse_tokens_loop_mono]. }
  intros H H'. destruct (Nat.le_ge_cases fuel fuel').
  - now apply G.
  - symmetry. now apply G.
Qed.

Lemma is_paren_false (token : string) :
  is_paren token = false ->
  String.eqb token "(" = false /\ String.eqb token ")" = false.
Proof. unfold is_paren. apply orb_false_iff. Qed.

(** A balanced run of tokens is parsed into nodes appended to the tree,
    and the loop goes on with what follows the run. *)
Lemma parse_tokens_loop_balanced (run : list string) :
  Balanced run ->
  exists nodes,
    flat_map flatten_tokens nodes = filter not_paren run
    /\ forall after tree fuel,
        (List.length (run ++ after) < fuel)%nat ->
        parse_tokens_loop fuel (run ++ after) tree
        = parse_tokens_loop fuel after (tree ++ nodes).
Proof.
  induction 1 as [|token rest Hp _ (nodes & Hf & IH)
                  |inner outer _ (nodes1 & Hf1 & IH1) _ (nodes2 & Hf2 & IH2)].
  - exists []. split; [reflexivity|]. intros after tree fuel _.
    now rewrite app_nil_r.
  - exists (Term token :: nodes). split.
    + cbn. unfold not_paren at 1. rewrite Hp. cbn. now rewrite Hf.
    + intros after tree fuel Hlen.
      destruct fuel as [|fuel]; [lia|]. simpl in Hlen.
      destruct (is_paren_false _ Hp) as [E1 E2].
      cbn [app]. rewrite parse_tokens_loop_step, E1, E2.
      rewrite IH by lia. rewrite <- app_assoc. cbn [app].
      rewrite length_app in Hlen.
      apply parse_tokens_loop_fuel; lia.
  - exists (Group nodes1 :: nodes2). split.
    + cbn. rewrite filter_app. cbn. now rewrite Hf1, Hf2.
    + intros after tree fuel Hlen.
      destruct fuel as [|fuel]; [lia|].
      cbn [app List.length] in Hlen.
      repeat (rewrite length_app in Hlen; cbn [List.length] in Hlen).
      cbn [app]. rewrite <- app_assoc. cbn [app].
      rewrite parse_tokens_loop_step. cbn [String.eqb Ascii.eqb Bool.eqb].
      rewrite IH1
        by (repeat (rewrite length_app; cbn [List.length]); lia).
      destruct fuel as [|fuel]; [lia|].
      rewrite parse_tokens_loop_step. cbn [String.eqb Ascii.eqb Bool.eqb app].
      rewrite IH2 by (rewrite length_app; lia).
      rewrite <- app_assoc. cbn [app].
      apply parse_tokens_loop_fuel; lia.
Qed.

Lemma balanced_from_Closes (tokens : list string) :
  forall depth, balanced_from depth tokens = true -> Closes depth tokens.
Proof.
  induction tokens as [|token tokens IH]; intros depth H.
  - cbn in H. apply Nat.eqb_eq in H. subst depth. constructor.
  - cbn [balanced_from] in H.
    destruct (String.eqb_spec token "(") as [->|N1].
    + apply IH in H. destruct H as (inner & outer & -> & Hi & Ho).
      destruct depth as [|d].
      * now apply Balanced_group.
      * destruct Ho as (inner2 & outer2 & -> & Hi2 & Ho2).
        exists ("(" :: inner ++ ")" :: inner2), outer2. repeat split.
        -- cbn. now rewrite <- app_assoc.
        -- now apply Balanced_group.
        -- exact Ho2.
    + destruct (String.eqb_spec token ")") as [->|N2].
      * destruct depth as [|d]; [discriminate|].
        exists [], tokens. repeat split; [constructor | now apply IH].
      * assert (is_paren token = false) as Hp.
        { unfold is_paren. apply orb_false_iff.
          split; now apply String.eqb_neq. }
        apply IH in H. destruct depth as [|d].
        -- now apply Balanced_token.
        -- destruct H as (inner & outer & -> & Hi & Ho).
           exists (token :: inner), outer. repeat split; auto.
           now apply Balanced_token.
Qed.

Lemma balanced_Balanced (tokens : list string) :
  balanced tokens = true -> Balanced tokens.
Proof. apply (balanced_from_Closes tokens 0). Qed.

Lemma parse_tokens_rest_balanced (run after : list string) :
  balanced run = true ->
  exists nodes,
    flat_map flatten_tokens nodes = filter not_paren run
    /\ parse_tokens_rest run = Some (nodes, [])
    /\ parse_tokens_rest (run ++ ")" :: after) = Some (nodes, after).
Proof.
  intros H. apply balanced_Balanced, parse_tokens_loop_balanced in H.
  destruct H as (nodes & Hf & Hl). exists nodes. split; [exact Hf|].
  unfold parse_tokens_rest. split.
  - rewrite <- (app_nil_r run) at 2. rewrite Hl by (rewrite app_nil_r; lia).
    reflexivity.
  - rewrite Hl by lia. reflexivity.
Qed.

(** C7: for a query with balanced parentheses the tokens of the parsed
    tree, read left to right, are the tokens of the query without the
    parentheses. *)
Theorem parse_query_round_trip (query : string) :
  balanced (tokenize query) = true ->
  exists tree,
    parse_query query = Some tree
    /\ flatten_tokens tree = filter not_paren (tokenize query).
Proof.
  intros H.
  destruct (parse_tokens_rest_balanced (tokenize query) [] H)
    as (nodes & Hf & Hp & _).
  exists (Group nodes). split; [|exact Hf].
  unfold parse_query, parse_tokens. now rewrite Hp.
Qed.

Lemma parse_query_round_trip_witness :
  exists tree,
    parse_query "(a AND b) OR (c AND (d OR e))" = Some tree
    /\ flatten_tokens tree = ["a"; "AND"; "b"; "OR"; "c"; "AND"; "d"; "OR"; "e"].
Proof.
  exact (parse_query_round_trip "(a AND b) OR (c AND (d OR e))" eq_refl).
Defined.

(** ** The tokenizer *)

(** One scan position of [findall] with no match in progress. *)
Lemma findall_step (prev : option ascii) (c : ascii) (r : string) :
  findall prev 0 (String c r)
  = match match_token prev (String c r) with
    | Some tok => tok :: findall (Some c) (String.length tok - 1) r
    | None => findall (Some c) 0 r
    end.
Proof. reflexivity. Qed.

Lemma match_keyword_here (kw : string) (prev : option ascii) (rest : string) :
  match_keyword kw prev (kw ++ rest)
  = boundary_before prev && boundary_after rest.
Proof.
  unfold match_keyword.
  now rewrite StrFacts.prefix_app, StrFacts.drop_app, andb_true_r.
Qed.

Lemma upper_char_cases (c u : ascii) :
  In u ["A"; "N"; "D"; "O"; "R"]%char ->
  Str.upper_char c = u ->
  c = u \/ c = ascii_of_nat (nat_of_ascii u + 32).
Proof.
  intros Hu E.
  destruct c as [[] [] [] [] [] [] [] []]; vm_compute in E; subst u;
    vm_compute in Hu |- *;
    try (left; reflexivity); try (right; reflexivity);
    exfalso; repeat (destruct Hu as [Hu|Hu]; [discriminate Hu|]);
    exact Hu.
Qed.

(** The strings that [is_operator] accepts: every letter-casing of the two
    words. *)
Lemma is_operator_cases (s : string) :
  is_operator s = true ->
  In s ["AND"; "ANd"; "AnD"; "And"; "aND"; "aNd"; "anD"; "and";
        "OR"; "Or"; "oR"; "or"].
Proof.
  unfold is_operator. intros H. apply orb_true_iff in H as [H|H];
    apply String.eqb_eq in H.
  - destruct s as [|c1 [|c2 [|c3 [|c4 s]]]]; try discriminate.
    cbn [Str.upper] in H. injection H as H1 H2 H3.
    apply upper_char_cases in H1; [|cbn; tauto].
    apply upper_char_cases in H2; [|cbn; tauto].
    apply upper_char_cases in H3; [|cbn; tauto].
    destruct H1 as [-> | ->], H2 as [-> | ->], H3 as [-> | ->];
      vm_compute; tauto.
  - destruct s as [|c1 [|c2 [|c3 s]]]; try discriminate.
    cbn [Str.upper] in H. injection H as H1 H2.
    apply upper_char_cases in H1; [|cbn; tauto].
    apply upper_char_cases in H2; [|cbn; tauto].
    destruct H1 as [-> | ->], H2 as [-> | ->]; vm_compute; tauto.
Qed.

(** The first token found at a scan position is the match there. *)
Lemma findall_first (prev : option ascii) (s tok : string) :
  match_token prev s = Some tok ->
  exists more, findall prev 0 s = tok :: more.
Proof.
  intros M. destruct s as [|c r].
  - unfold match_token, match_keyword in M.
    destruct (boundary_before prev); discriminate M.
  - rewrite findall_step, M. eauto.
Qed.

(** An upper-case operator that misses a word boundary is left to the
    term alternative. *)
Lemma match_token_no_boundary (prev : option ascii) (word rest : string) :
  word = "AND" \/ word = "OR" ->
  boundary_before prev && boundary_after rest = false ->
  match_token prev (word ++ rest) = Some (word ++ term_run rest)%string.
Proof.
  intros [-> | ->] B; unfold match_token.
  - rewrite match_keyword_here, B. unfold match_keyword.
    change (String.prefix "OR" ("AND" ++ rest)) with false.
    rewrite andb_false_r. reflexivity.
  - rewrite match_keyword_here, B. unfold match_keyword.
    change (String.prefix "AND" ("OR" ++ rest)) with false.
    rewrite andb_false_r. reflexivity.
Qed.

(** Another letter-casing of an operator is left to the term
    alternative. *)
Lemma match_token_other_casing (prev : option ascii) (word rest : string) :
  is_operator word = true -> word <> "AND" -> word <> "OR" ->
  match_token prev (word ++ rest) = Some (word ++ term_run rest)%string.
Proof.
  intros Hop N1 N2.
  apply is_operator_cases in Hop. cbn [In] in Hop.
  unfold match_token, match_keyword.
  repeat (destruct Hop as [<-|Hop]; [try congruence|]);
    try contradiction;
    destruct (boundary_before prev); reflexivity.
Qed.

(** C5, as the code has it: the operator alternatives of the pattern are
    case-sensitive and whole-word.  At every scan position an upper-case
    [AND] or [OR] is split off as a token of its own when it stands
    between word boundaries, and only then: without a boundary on either
    side, and in any other letter-casing, the word is not matched as an
    operator and goes to the term alternative, which takes it together
    with the characters that follow up to the next whitespace or
    parenthesis. *)
Theorem tokenize_operators_uppercase :
  (forall prev rest,
      boundary_before prev = true -> boundary_after rest = true ->
      findall prev 0 ("AND" ++ rest) = "AND" :: findall (Some "D"%char) 0 rest)
  /\ (forall prev rest,
         boundary_before prev = true -> boundary_after rest = true ->
         findall prev 0 ("OR" ++ rest) = "OR" :: findall (Some "R"%char) 0 rest)
  /\ (forall prev word rest,
         is_operator word = true -> word <> "AND" -> word <> "OR" ->
         match_token prev (word ++ rest) = Some (word ++ term_run rest)%string)
  /\ (forall prev word rest,
         word = "AND" \/ word = "OR" ->
         boundary_before prev && boundary_after rest = false ->
         match_token prev (word ++ rest) = Some (word ++ term_run rest)%string)
  /\ (forall prev word rest,
         is_operator word = true ->
         (word = "AND" \/ word = "OR") /\ boundary_before prev = true
         /\ boundary_after rest = true
         \/ exists more,
             findall prev 0 (word ++ rest)
             = (word ++ term_run rest)%string :: more).
Proof.
  split; [|split; [|split; [|split]]].
  - intros prev rest Hb Ha.
    assert (match_token prev ("AND" ++ rest) = Some "AND") as M.
    { unfold match_token. rewrite match_keyword_here, Hb, Ha. reflexivity. }
    change ("AND" ++ rest)%string with (String "A" ("ND" ++ rest)) in *.
    rewrite findall_step, M. reflexivity.
  - intros prev rest Hb Ha.
    assert (match_token prev ("OR" ++ rest) = Some "OR") as M.
    { unfold match_token. rewrite match_keyword_here, Hb, Ha.
      unfold match_keyword.
      change (String.prefix "AND" ("OR" ++ rest)) with false.
      rewrite andb_false_r. reflexivity. }
    change ("OR" ++ rest)%string with (String "O" ("R" ++ rest)) in *.
    rewrite findall_step, M. reflexivity.
  - exact match_token_other_casing.
  - exact match_token_no_boundary.
  - intros prev word rest Hop.
    destruct (String.eqb_spec word "AND") as [E1|N1];
      [|destruct (String.eqb_spec word "OR") as [E2|N2]].
    + destruct (boundary_before prev && boundary_after rest) eqn:B.
      * left. apply andb_true_iff in B. tauto.
      * right. apply findall_first, match_token_no_boundary; auto.
    + destruct (boundary_before prev && boundary_after rest) eqn:B.
      * left. apply andb_true_iff in B. tauto.
      * right. apply findall_first, match_token_no_boundary; auto.
    + right. now apply findall_first, match_token_other_casing.
Qed.

Lemma tokenize_operators_uppercase_witness :
  tokenize "AND-x" = ["AND"; "-x"]
  /\ tokenize "a OR(b)" = ["a"; "OR"; "("; "b"; ")"]
  /\ match_token None "and-x" = Some "and-x"
  /\ match_token None "ORGAN" = Some "ORGAN"
  /\ match_token (Some "x"%char) "AND y" = Some "AND".
Proof.
  split; [|split; [|split; [|split]]].
  - exact (proj1 tokenize_operators_uppercase None "-x" eq_refl eq_refl).
  - exact (f_equal (cons "a")
             (proj1 (proj2 tokenize_operators_uppercase)
                (Some " "%char) "(b)" eq_refl eq_refl)).
  - refine (proj1 (proj2 (proj2 tokenize_operators_uppercase))
              None "and" "-x" eq_refl _ _); discriminate.
  - exact (proj1 (proj2 (proj2 (proj2 tokenize_operators_uppercase)))
             None "OR" "GAN" (or_intror eq_refl) eq_refl).
  - exact (proj1 (proj2 (proj2 (proj2 tokenize_operators_uppercase)))
             (Some "x"%char) "AND" " y" (or_introl eq_refl) eq_refl).
Defined.

(** C5 fails as stated: the lower-case ["and"] at the start of ["and-x"]
    stands between word boundaries and is not split off, where the
    upper-case word is. *)
Lemma tokenize_lowercase_not_split :
  boundary_before None = true
  /\ boundary_after "-x" = true
  /\ tokenize "and-x" = ["and-x"]
  /\ tokenize "AND-x" = ["AND"; "-x"].
Proof. repeat split; reflexivity. Qed.

(** * Further properties of the code *)

(** ** The character classes *)

(** The whitespace of [\s] and of [strip], by code. *)
Lemma is_space_codes :
  codes_of is_space = [9; 10; 11; 12; 13; 28; 29; 30; 31; 32; 133; 160]%nat.
Proof. vm_compute. reflexivity. Qed.

(** The word characters of [\w], by code. *)
Lemma is_word_codes :
  codes_of is_word
  = (seq 48 10 ++ seq 65 26 ++ [95] ++ seq 97 26
     ++ [170; 178; 179; 181; 185; 186] ++ seq 188 3
     ++ seq 192 23 ++ seq 216 31 ++ seq 248 8)%nat.
Proof. vm_compute. reflexivity. Qed.

(** The characters that [upper] changes, each to the code 32 below. *)
Lemma upper_char_codes :
  codes_of (fun c => negb (Ascii.eqb (Str.upper_char c) c))
  = (seq 97 26 ++ seq 224 23 ++ seq 248 7)%nat
  /\ forallb (fun c =>
                Ascii.eqb (Str.upper_char c) c
                || (nat_of_ascii (Str.upper_char c) =? nat_of_ascii c - 32)%nat)
             all_chars_by_code = true.
Proof. split; vm_compute; reflexivity. Qed.

(** The no-break space separates tokens, and a letter above ASCII behind
    an operator keeps it from being split off. *)
Lemma tokenize_above_ascii :
  tokenize ("a" ++ String (ascii_of_nat 160)
                     ("OR" ++ String (ascii_of_nat 160) "b"))
  = ["a"; "OR"; "b"]
  /\ tokenize (String (ascii_of_nat 160) "") = []
  /\ tokenize ("AND" ++ String (ascii_of_nat 233) "")
     = [("AND" ++ String (ascii_of_nat 233) "")%string].
Proof. repeat split; vm_compute; reflexivity. Qed.

(** ** What the tokenizer keeps *)

Lemma prefix_empty (s : string) : String.prefix "" s = true.
Proof. now destruct s. Qed.

Lemma prefix_char_false (a c : ascii) (r : string) :
  String.prefix (String a "") (String c r) = false -> Ascii.eqb c a = false.
Proof.
  cbn. destruct (ascii_dec a c) as [->|N].
  - now rewrite prefix_empty.
  - intros _. apply Ascii.eqb_neq. congruence.
Qed.

Lemma is_term_char_true (c : ascii) :
  is_term_char c = true ->
  is_space c = false /\ Ascii.eqb c "(" = false /\ Ascii.eqb c ")" = false.
Proof.
  unfold is_term_char. intros H.
  apply andb_true_iff in H as [H H3]. apply andb_true_iff in H as [H1 H2].
  now rewrite negb_true_iff in *.
Qed.

Lemma term_run_chars (s : string) : all_chars is_term_char (term_run s) = true.
Proof.
  induction s as [|c r IH]; [reflexivity|]. cbn [term_run].
  destruct (is_term_char c) eqn:E; [|reflexivity].
  cbn [all_chars]. now rewrite E, IH.
Qed.

Lemma term_run_prefix (s : string) :
  s = (term_run s ++ Str.drop (String.length (term_run s)) s)%string.
Proof.
  induction s as [|c r IH]; [reflexivity|]. cbn [term_run].
  destruct (is_term_char c); [|reflexivity].
  cbn. now rewrite <- IH.
Qed.

(** A match is a well-shaped token that heads the text. *)
Lemma match_token_Some (prev : option ascii) (s tok : string) :
  match_token prev s = Some tok ->
  token_shape tok = true
  /\ tok <> EmptyString
  /\ s = (tok ++ Str.drop (String.length tok) s)%string.
Proof.
  unfold match_token.
  destruct (String.prefix "(" s) eqn:P1.
  { intros [= <-]. repeat split; [discriminate | now apply StrFacts.prefix_inv]. }
  destruct (String.prefix ")" s) eqn:P2.
  { intros [= <-]. repeat split; [discriminate | now apply StrFacts.prefix_inv]. }
  destruct (match_keyword "AND" prev s) eqn:K1.
  { intros [= <-]. unfold match_keyword in K1.
    apply andb_true_iff in K1 as [K1 _]. apply andb_true_iff in K1 as [_ K1].
    repeat split; [discriminate | now apply StrFacts.prefix_inv]. }
  destruct (match_keyword "OR" prev s) eqn:K2.
  { intros [= <-]. unfold match_keyword in K2.
    apply andb_true_iff in K2 as [K2 _]. apply andb_true_iff in K2 as [_ K2].
    repeat split; [discriminate | now apply StrFacts.prefix_inv]. }
  pose proof (term_run_chars s) as C. pose proof (term_run_prefix s) as E.
  destruct (term_run s) as [|a run]; [discriminate|].
  intros [= <-]. repeat split; [|discriminate | exact E].
  unfold token_shape. rewrite C. cbn [String.eqb negb andb].
  apply orb_true_r.
Qed.

(** Only whitespace is passed over without a token. *)
Lemma match_token_None (prev : option ascii) (c : ascii) (r : string) :
  match_token prev (String c r) = None -> is_space c = true.
Proof.
  unfold match_token.
  destruct (String.prefix "(" (String c r)) eqn:P1; [discriminate|].
  destruct (String.prefix ")" (String c r)) eqn:P2; [discriminate|].
  destruct (match_keyword "AND" prev (String c r)); [discriminate|].
  destruct (match_keyword "OR" prev (String c r)); [discriminate|].
  apply prefix_char_false in P1, P2.
  cbn [term_run]. destruct (is_term_char c) eqn:T; [discriminate|].
  intros _. unfold is_term_char in T. rewrite P1, P2 in T.
  cbn [negb] in T. rewrite !andb_true_r in T.
  now apply negb_false_iff in T.
Qed.

Lemma remove_spaces_app (s t : string) :
  remove_spaces (s ++ t) = (remove_spaces s ++ remove_spaces t)%string.
Proof.
  induction s as [|c s IH]; [reflexivity|]. cbn.
  destruct (is_space c); cbn; now rewrite IH.
Qed.

Lemma remove_spaces_term_chars (s : string) :
  all_chars is_term_char s = true -> remove_spaces s = s.
Proof.
  induction s as [|c s IH]; [reflexivity|]. cbn. intros H.
  apply andb_true_iff in H as [Hc Hs].
  apply is_term_char_true in Hc as [-> _]. now rewrite IH.
Qed.

Lemma remove_spaces_token (tok : string) :
  token_shape tok = true -> remove_spaces tok = tok.
Proof.
  unfold token_shape. intros H.
  apply orb_true_iff in H as [H|H]; [apply orb_true_iff in H as [H|H]|].
  - apply String.eqb_eq in H. now subst.
  - apply String.eqb_eq in H. now subst.
  - apply andb_true_iff in H as [_ H]. now apply remove_spaces_term_chars.
Qed.

Lemma concat_empty_cons (x : string) (l : list string) :
  String.concat "" (x :: l) = (x ++ String.concat "" l)%string.
Proof.
  destruct l as [|y l]; cbn [String.concat append].
  - now rewrite StrFacts.app_nil_r.
  - reflexivity.
Qed.

Lemma drop_pred (n : nat) (c : ascii) (r : string) :
  n <> O -> Str.drop (n - 1) r = Str.drop n (String c r).
Proof. destruct n as [|n]; [congruence|]. cbn. now rewrite Nat.sub_0_r. Qed.

Lemma length_nonempty (s : string) : s <> EmptyString -> String.length s <> O.
Proof. now destruct s. Qed.

(** The tokens found from a scan position, put end to end, are the text
    from there without its whitespace. *)
Lemma findall_concat (s : string) :
  forall prev skip,
    String.concat "" (findall prev skip s) = remove_spaces (Str.drop skip s).
Proof.
  induction s as [|c r IH]; intros prev skip.
  - now destruct skip.
  - destruct skip as [|k]; [|apply IH].
    rewrite findall_step. cbn [Str.drop].
    destruct (match_token prev (String c r)) as [tok|] eqn:M.
    + apply match_token_Some in M as (Hs & Hn & E).
      rewrite concat_empty_cons, IH.
      rewrite (drop_pred _ c r (length_nonempty _ Hn)).
      rewrite E at 2. rewrite remove_spaces_app.
      now rewrite (remove_spaces_token _ Hs).
    + apply match_token_None in M. rewrite IH. cbn. now rewrite M.
Qed.

Lemma findall_shape (s : string) :
  forall prev skip,
    Forall (fun tok => token_shape tok = true) (findall prev skip s).
Proof.
  induction s as [|c r IH]; intros prev skip; [constructor|].
  destruct skip as [|k]; [|apply IH].
  rewrite findall_step.
  destruct (match_token prev (String c r)) as [tok|] eqn:M; [|apply IH].
  constructor; [|apply IH]. now apply match_token_Some in M.
Qed.

(** X1: every token is a parenthesis or a non-empty run of characters
    that are neither whitespace nor parentheses. *)
Theorem tokenize_token_shape (query : string) :
  Forall (fun tok =>
            tok = "(" \/ tok = ")"
            \/ (tok <> EmptyString /\ all_chars is_term_char tok = true))
         (tokenize query).
Proof.
  eapply Forall_impl; [|apply findall_shape]. intros tok H.
  unfold token_shape in H.
  apply orb_true_iff in H as [H|H]; [apply orb_true_iff in H as [H|H]|].
  - left. now apply String.eqb_eq.
  - right; left. now apply String.eqb_eq.
  - right; right. apply andb_true_iff in H as [H1 H2]. split; [|exact H2].
    apply negb_true_iff in H1. now apply String.eqb_neq.
Qed.

(** X2: the tokens put end to end are the query without its whitespace:
    the tokenizer drops whitespace and nothing else. *)
Theorem tokenize_lossless (query : string) :
  String.concat "" (tokenize query) = remove_spaces query.
Proof. apply (findall_concat query None 0). Qed.

Lemma remove_spaces_blank (s : string) :
  remove_spaces s = EmptyString <-> all_chars is_space s = true.
Proof.
  induction s as [|c s IH]; cbn; [tauto|].
  destruct (is_space c); cbn; [exact IH|]. split; discriminate.
Qed.

(** X3: a query has no token exactly when it is empty or all
    whitespace. *)
Theorem tokenize_nil_iff_blank (query : string) :
  tokenize query = [] <-> all_chars is_space query = true.
Proof.
  rewrite <- remove_spaces_blank.
  pose proof (findall_concat query None 0) as E. cbn [Str.drop] in E.
  pose proof (findall_shape query None 0) as H.
  unfold tokenize. rewrite <- E.
  split; [now intros ->|].
  destruct (findall None 0 query) as [|tok l]; [reflexivity|].
  rewrite concat_empty_cons. inversion H as [|? ? Ht _]; subst.
  destruct tok as [|a tok]; [discriminate Ht | discriminate].
Qed.

(** ** Whitespace around the query *)

Lemma is_space_not_word (c : ascii) : is_space c = true -> is_word c = false.
Proof.
  destruct c as [[] [] [] [] [] [] [] []]; vm_compute; congruence.
Qed.

Lemma is_space_not_term_char (c : ascii) :
  is_space c = true -> is_term_char c = false.
Proof. unfold is_term_char. now intros ->. Qed.

Lemma match_token_space (prev : option ascii) (c : ascii) (r : string) :
  is_space c = true -> match_token prev (String c r) = None.
Proof.
  intros H. unfold match_token, match_keyword.
  cbn [term_run]. rewrite (is_space_not_term_char c H).
  destruct c as [[] [] [] [] [] [] [] []]; vm_compute in H; try discriminate H;
    destruct (boundary_before prev); reflexivity.
Qed.

(** The scan looks at the character before a position only to tell a
    word boundary. *)
Lemma findall_prev (p1 p2 : option ascii) (s : string) :
  boundary_before p1 = boundary_before p2 ->
  findall p1 0 s = findall p2 0 s.
Proof.
  intros E. destruct s as [|c r]; [reflexivity|].
  rewrite !findall_step. unfold match_token, match_keyword. now rewrite E.
Qed.

Lemma findall_space_head (prev : option ascii) (c : ascii) (r : string) :
  is_space c = true -> findall prev 0 (String c r) = findall None 0 r.
Proof.
  intros H. rewrite findall_step, (match_token_space prev c r H).
  apply findall_prev. cbn. now rewrite (is_space_not_word c H).
Qed.

Lemma findall_blank (ws : string) :
  all_chars is_space ws = true ->
  forall prev skip, findall prev skip ws = [].
Proof.
  induction ws as [|c r IH]; intros H prev skip; [reflexivity|].
  cbn in H. apply andb_true_iff in H as [Hc Hr].
  destruct skip as [|k]; [|now apply IH].
  rewrite findall_step, (match_token_space prev c r Hc). now apply IH.
Qed.

Lemma blank_head (ws : string) :
  all_chars is_space ws = true ->
  ws = EmptyString \/ exists c r, ws = String c r /\ is_space c = true.
Proof.
  destruct ws as [|c r]; [now left|]. cbn. intros H.
  apply andb_true_iff in H as [Hc _]. right. now exists c, r.
Qed.

Lemma prefix_app_blank (kw s ws : string) :
  all_chars (fun c => negb (is_space c)) kw = true ->
  all_chars is_space ws = true ->
  String.prefix kw (s ++ ws) = String.prefix kw s.
Proof.
  intros Hk Hw. revert s. induction kw as [|a kw IH]; intros s.
  - now rewrite !prefix_empty.
  - cbn in Hk. apply andb_true_iff in Hk as [Ha Hk].
    apply negb_true_iff in Ha.
    destruct s as [|b s]; cbn [append].
    + destruct (blank_head ws Hw) as [->|(c & r & -> & Hc)]; [reflexivity|].
      cbn. destruct (ascii_dec a c) as [->|_]; [congruence | reflexivity].
    + cbn. destruct (ascii_dec a b); [now apply IH | reflexivity].
Qed.

Lemma boundary_after_app_blank (s ws : string) :
  all_chars is_space ws = true ->
  boundary_after (s ++ ws) = boundary_after s.
Proof.
  intros Hw. destruct s as [|c s]; [|reflexivity]. cbn [append].
  destruct (blank_head ws Hw) as [->|(c & r & -> & Hc)]; [reflexivity|].
  cbn. now rewrite (is_space_not_word c Hc).
Qed.

Lemma match_keyword_app_blank (kw : string) (prev : option ascii)
      (s ws : string) :
  all_chars (fun c => negb (is_space c)) kw = true ->
  all_chars is_space ws = true ->
  match_keyword kw prev (s ++ ws) = match_keyword kw prev s.
Proof.
  intros Hk Hw. unfold match_keyword. rewrite (prefix_app_blank kw s ws Hk Hw).
  destruct (String.prefix kw s) eqn:P.
  - apply StrFacts.prefix_inv in P. rewrite P at 1.
    rewrite StrFacts.app_assoc, StrFacts.drop_app.
    now rewrite (boundary_after_app_blank _ _ Hw).
  - now rewrite !andb_false_r.
Qed.

Lemma term_run_app_blank (s ws : string) :
  all_chars is_space ws = true -> term_run (s ++ ws) = term_run s.
Proof.
  intros Hw. induction s as [|c s IH]; cbn [append term_run].
  - destruct (blank_head ws Hw) as [->|(c & r & -> & Hc)]; [reflexivity|].
    cbn. now rewrite (is_space_not_term_char c Hc).
  - now rewrite IH.
Qed.

Lemma match_token_app_blank (prev : option ascii) (s ws : string) :
  all_chars is_space ws = true ->
  match_token prev (s ++ ws) = match_token prev s.
Proof.
  intros Hw. unfold match_token.
  rewrite !(prefix_app_blank _ s ws) by (reflexivity || exact Hw).
  rewrite !(match_keyword_app_blank _ prev s ws) by (reflexivity || exact Hw).
  now rewrite (term_run_app_blank s ws Hw).
Qed.

Lemma findall_app_blank (ws : string) :
  all_chars is_space ws = true ->
  forall s prev skip, findall prev skip (s ++ ws) = findall prev skip s.
Proof.
  intros Hw. induction s as [|c r IH]; intros prev skip.
  - cbn [append]. rewrite (findall_blank ws Hw). now destruct skip.
  - destruct skip as [|k]; cbn [append]; [|apply IH].
    rewrite !findall_step.
    change (String c (r ++ ws)) with (String c r ++ ws)%string.
    rewrite (match_token_app_blank prev (String c r) ws Hw).
    destruct (match_token prev (String c r)); now rewrite IH.
Qed.

Lemma str_rstrip_split (s : string) :
  exists ws, all_chars is_space ws = true /\ s = (str_rstrip s ++ ws)%string.
Proof.
  induction s as [|c r (ws & Hw & E)]; [now exists EmptyString|].
  cbn [str_rstrip]. destruct (str_rstrip r) as [|a r'] eqn:R.
  - cbn [append] in E. subst r. destruct (is_space c) eqn:Hc.
    + exists (String c ws). cbn. now rewrite Hc, Hw.
    + now exists ws.
  - exists ws. split; [exact Hw|]. cbn [append]. f_equal. exact E.
Qed.

Lemma tokenize_lstrip (s : string) : tokenize (str_lstrip s) = tokenize s.
Proof.
  unfold tokenize. induction s as [|c r IH]; [reflexivity|].
  cbn [str_lstrip]. destruct (is_space c) eqn:Hc; [|reflexivity].
  now rewrite IH, (findall_space_head None c r Hc).
Qed.

Lemma tokenize_str_strip (query : string) :
  tokenize (str_strip query) = tokenize query.
Proof.
  unfold str_strip. rewrite tokenize_lstrip.
  destruct (str_rstrip_split query) as (ws & Hw & E).
  rewrite E at 2. unfold tokenize.
  now rewrite (findall_app_blank ws Hw).
Qed.

(** X4: whitespace before and after the query does not change its
    tokens, so the [strip] of [main] leaves the parsed tree as it is. *)
Theorem tokenize_strip (query : string) :
  tokenize (str_strip query) = tokenize query
  /\ parse_query (str_strip query) = parse_query query.
Proof.
  split; [apply tokenize_str_strip|].
  unfold parse_query. now rewrite tokenize_str_strip.
Qed.

(** ** What the parser keeps *)

Lemma eqb_paren_open (token : string) :
  String.eqb token "(" = true -> not_paren token = false.
Proof. intros H. apply String.eqb_eq in H. now subst. Qed.

Lemma eqb_paren_close (token : string) :
  String.eqb token ")" = true -> not_paren token = false.
Proof. intros H. apply String.eqb_eq in H. now subst. Qed.

Lemma eqb_not_paren (token : string) :
  String.eqb token "(" = false -> String.eqb token ")" = false ->
  not_paren token = true.
Proof. intros H1 H2. unfold not_paren, is_paren. now rewrite H1, H2. Qed.

(** The loop appends nodes to the tree; their tokens followed by the
    tokens left unread are the tokens it was given, parentheses apart, and
    the tokens left unread are a tail of the tokens given. *)
Lemma parse_tokens_loop_conserves (fuel : nat) :
  forall tokens tree tree' rest,
    parse_tokens_loop fuel tokens tree = Some (tree', rest) ->
    exists nodes,
      tree' = tree ++ nodes
      /\ flat_map flatten_tokens nodes ++ filter not_paren rest
         = filter not_paren tokens
      /\ exists consumed, tokens = consumed ++ rest.
Proof.
  induction fuel as [|fuel IH]; intros tokens tree tree' rest H;
    [discriminate|].
  destruct tokens as [|token tokens].
  - injection H as <- <-. exists []. rewrite app_nil_r.
    repeat split. now exists [].
  - rewrite parse_tokens_loop_step in H.
    destruct (String.eqb token "(") eqn:E1.
    + destruct (parse_tokens_loop fuel tokens []) as [[sub rest1]|] eqn:L;
        [|discriminate].
      apply IH in L as (nodes1 & -> & F1 & cons1 & ->).
      apply IH in H as (nodes2 & -> & F2 & cons2 & C2).
      exists (Group nodes1 :: nodes2). repeat split.
      * now rewrite <- app_assoc.
      * cbn [filter flat_map flatten_tokens app].
        rewrite (eqb_paren_open _ E1), <- F1, <- F2.
        now rewrite app_assoc.
      * exists (token :: cons1 ++ cons2). rewrite C2.
        cbn [app]. now rewrite <- app_assoc.
    + destruct (String.eqb token ")") eqn:E2.
      * injection H as <- <-. exists []. rewrite app_nil_r.
        repeat split.
        -- cbn [filter flat_map app]. now rewrite (eqb_paren_close _ E2).
        -- now exists [token].
      * apply IH in H as (nodes & -> & F & cons & C).
        exists (Term token :: nodes). repeat split.
        -- now rewrite <- app_assoc.
        -- cbn [filter flat_map flatten_tokens app].
           now rewrite (eqb_not_paren _ E1 E2), <- F.
        -- exists (token :: cons). now rewrite C.
Qed.

Lemma parse_tokens_frames_step (fuel frames : nat) (token : string)
      (tokens : list string) (tree : list Node) :
  parse_tokens_frames (S fuel) frames (token :: tokens) tree
  = if String.eqb token "(" then
      match frames with
      | O => Some RecursionError
      | S frames' =>
          match parse_tokens_frames fuel frames' tokens [] with
          | Some (Returned (subtree, rest)) =>
              parse_tokens_frames fuel frames rest (tree ++ [Group subtree])
          | Some RecursionError => Some RecursionError
          | None => None
          end
      end
    else if String.eqb token ")" then Some (Returned (tree, tokens))
    else parse_tokens_frames fuel frames tokens (tree ++ [Term token]).
Proof. reflexivity. Qed.

Lemma nesting_cons (n : Node) (nodes : list Node) :
  nesting (n :: nodes) = Nat.max (node_depth n) (nesting nodes).
Proof. reflexivity. Qed.

Lemma app_same_nil {A : Type} (l m : list A) : l = l ++ m -> m = [].
Proof.
  intros E. apply (app_inv_head l). now rewrite app_nil_r.
Qed.

(** The loop with the stack counted returns what the loop returns when
    the nodes it appends nest no deeper than the frames allowed, and
    raises otherwise. *)
Lemma parse_tokens_frames_spec (fuel : nat) :
  forall frames tokens tree nodes rest,
    parse_tokens_loop fuel tokens tree = Some (tree ++ nodes, rest) ->
    parse_tokens_frames fuel frames tokens tree
    = Some (if (nesting nodes <=? frames)%nat
            then Returned (tree ++ nodes, rest)
            else RecursionError).
Proof.
  induction fuel as [|fuel IH]; intros frames tokens tree nodes rest H;
    [discriminate|].
  destruct tokens as [|token tokens].
  - cbn in H. injection H as E <-. apply app_same_nil in E. subst nodes.
    cbn. now rewrite app_nil_r.
  - rewrite parse_tokens_loop_step in H. rewrite parse_tokens_frames_step.
    destruct (String.eqb token "(") eqn:E1.
    + destruct (parse_tokens_loop fuel tokens []) as [[sub rest1]|] eqn:L;
        [|discriminate].
      pose proof (parse_tokens_loop_conserves _ _ _ _ _ H) as (nodes2 & E & _).
      rewrite <- app_assoc in E. apply app_inv_head in E. subst nodes.
      cbn [app] in *. rewrite nesting_cons. cbn [node_depth].
      fold (nesting sub).
      destruct frames as [|frames'].
      * destruct (Nat.leb_spec (Nat.max (S (nesting sub)) (nesting nodes2)) 0);
          [lia | reflexivity].
      * rewrite (IH frames' tokens [] sub rest1 L).
        destruct (Nat.leb_spec (nesting sub) frames') as [Hs|Hs]; cbn [app].
        -- assert (parse_tokens_loop fuel rest1 (tree ++ [Group sub])
                   = Some ((tree ++ [Group sub]) ++ nodes2, rest)) as H'
              by (rewrite H, <- app_assoc; reflexivity).
           rewrite (IH (S frames') _ _ _ _ H'), <- app_assoc. cbn [app].
           destruct (Nat.leb_spec (nesting nodes2) (S frames')),
             (Nat.leb_spec (Nat.max (S (nesting sub)) (nesting nodes2))
                           (S frames')); try lia; reflexivity.
        -- destruct (Nat.leb_spec (Nat.max (S (nesting sub)) (nesting nodes2))
                                  (S frames')); [lia | reflexivity].
    + destruct (String.eqb token ")") eqn:E2.
      * injection H as E <-. apply app_same_nil in E. subst nodes.
        cbn. now rewrite app_nil_r.
      * pose proof (parse_tokens_loop_conserves _ _ _ _ _ H) as (nodes' & E & _).
        rewrite <- app_assoc in E. apply app_inv_head in E. subst nodes.
        cbn [app] in *. rewrite nesting_cons. cbn [node_depth Nat.max].
        assert (parse_tokens_loop fuel tokens (tree ++ [Term token])
                = Some ((tree ++ [Term token]) ++ nodes', rest)) as H'
            by (rewrite H, <- app_assoc; reflexivity).
        rewrite (IH frames _ _ _ _ H'), <- app_assoc. reflexivity.
Qed.

Lemma opens_cons (token : string) (tokens : list string) :
  opens (token :: tokens)
  = if String.eqb token "(" then S (opens tokens) else opens tokens.
Proof. unfold opens. cbn [filter]. now destruct (String.eqb token "("). Qed.

(** The nodes nest no deeper than the opening parentheses read. *)
Lemma parse_tokens_loop_nesting (fuel : nat) :
  forall tokens tree nodes rest,
    parse_tokens_loop fuel tokens tree = Some (tree ++ nodes, rest) ->
    (nesting nodes + opens rest <= opens tokens)%nat.
Proof.
  induction fuel as [|fuel IH]; intros tokens tree nodes rest H;
    [discriminate|].
  destruct tokens as [|token tokens].
  - cbn in H. injection H as E <-. apply app_same_nil in E. now subst nodes.
  - rewrite parse_tokens_loop_step in H. rewrite opens_cons.
    destruct (String.eqb token "(") eqn:E1.
    + destruct (parse_tokens_loop fuel tokens []) as [[sub rest1]|] eqn:L;
        [|discriminate].
      pose proof (parse_tokens_loop_conserves _ _ _ _ _ H) as (nodes2 & E & _).
      rewrite <- app_assoc in E. apply app_inv_head in E. subst nodes.
      cbn [app] in *. rewrite nesting_cons. cbn [node_depth].
      fold (nesting sub).
      pose proof (IH tokens [] sub rest1 L) as I1.
      assert (parse_tokens_loop fuel rest1 (tree ++ [Group sub])
              = Some ((tree ++ [Group sub]) ++ nodes2, rest)) as H'
          by (rewrite H, <- app_assoc; reflexivity).
      pose proof (IH _ _ _ _ H') as I2. lia.
    + destruct (String.eqb token ")") eqn:E2.
      * injection H as E <-. apply app_same_nil in E. subst nodes. cbn. lia.
      * pose proof (parse_tokens_loop_conserves _ _ _ _ _ H) as (nodes' & E & _).
        rewrite <- app_assoc in E. apply app_inv_head in E. subst nodes.
        cbn [app] in *. rewrite nesting_cons. cbn [node_depth Nat.max].
        assert (parse_tokens_loop fuel tokens (tree ++ [Term token])
                = Some ((tree ++ [Term token]) ++ nodes', rest)) as H'
            by (rewrite H, <- app_assoc; reflexivity).
        exact (IH _ _ _ _ H').
Qed.

(** [parse_tokens] under the recursion limit, against the tree that the
    tokens denote. *)
Lemma parse_tokens_limited_rest_spec (frames : nat) (tokens : list string) :
  exists nodes rest,
    parse_tokens_rest tokens = Some (nodes, rest)
    /\ (nesting nodes + opens rest <= opens tokens)%nat
    /\ parse_tokens_limited_rest frames tokens
       = Some (if (nesting nodes <=? frames)%nat
               then Returned (nodes, rest)
               else RecursionError).
Proof.
  unfold parse_tokens_rest, parse_tokens_limited_rest.
  destruct (parse_tokens_loop_total (S (List.length tokens)) tokens []
              ltac:(lia)) as (nodes & rest & E & _).
  exists nodes, rest. split; [exact E|]. split.
  - exact (parse_tokens_loop_nesting _ tokens [] nodes rest E).
  - exact (parse_tokens_frames_spec _ frames tokens [] nodes rest E).
Qed.

(** X5: whenever [parse_tokens] returns, it has neither invented, dropped
    nor reordered a token it read: the tokens of the tree followed by the
    tokens left unread are the tokens given, parentheses apart, and the
    unread tokens are a tail of the tokens given. *)
Theorem parse_tokens_conserves
  (frames : nat) (tokens : list string) (nodes : list Node)
  (rest : list string) :
  parse_tokens_limited_rest frames tokens = Some (Returned (nodes, rest)) ->
  flatten_tokens (Group nodes) ++ filter not_paren rest
  = filter not_paren tokens
  /\ exists consumed, tokens = consumed ++ rest.
Proof.
  intros H.
  destruct (parse_tokens_limited_rest_spec frames tokens)
    as (nodes' & rest' & E & _ & L).
  rewrite L in H.
  destruct (nesting nodes' <=? frames)%nat; [|discriminate].
  injection H as -> ->.
  apply parse_tokens_loop_conserves in E as (nodes' & E & F & C).
  cbn [app] in E. subst nodes'. now split.
Qed.

Lemma parse_tokens_conserves_witness :
  flatten_tokens (Group [Group [Term "a"; Term "AND"; Term "b"]])
  ++ filter not_paren ["OR"; "c"]
  = filter not_paren ["("; "a"; "AND"; "b"; ")"; ")"; "OR"; "c"]
  /\ exists consumed,
      ["("; "a"; "AND"; "b"; ")"; ")"; "OR"; "c"] = consumed ++ ["OR"; "c"].
Proof.
  exact (parse_tokens_conserves 1
           ["("; "a"; "AND"; "b"; ")"; ")"; "OR"; "c"]
           [Group [Term "a"; Term "AND"; Term "b"]] ["OR"; "c"] eq_refl).
Defined.

(** A group that the input leaves open is closed by the end of the
    input. *)
Lemma parse_tokens_loop_open_group (inner : list string) :
  Balanced inner ->
  exists nodes,
    forall tree,
      (forall fuel,
          (List.length inner + 1 < fuel)%nat ->
          parse_tokens_loop fuel ("(" :: inner) tree
          = Some (tree ++ [Group nodes], []))
      /\ (forall fuel,
             (List.length inner + 2 < fuel)%nat ->
             parse_tokens_loop fuel ("(" :: inner ++ [")"]) tree
             = Some (tree ++ [Group nodes], [])).
Proof.
  intros B. destruct (parse_tokens_loop_balanced inner B) as (nodes & _ & L).
  exists nodes. intros tree. split; intros fuel Hf.
  - destruct fuel as [|[|fuel]]; try lia.
    rewrite parse_tokens_loop_step. cbn [String.eqb Ascii.eqb Bool.eqb].
    rewrite <- (app_nil_r inner) at 1.
    rewrite L by (rewrite app_nil_r; lia). reflexivity.
  - destruct fuel as [|[|fuel]]; try lia.
    rewrite parse_tokens_loop_step. cbn [String.eqb Ascii.eqb Bool.eqb].
    rewrite L by (rewrite length_app; cbn [List.length]; lia).
    reflexivity.
Qed.

(** X6: a last group that the input leaves open is parsed as if its
    closing parenthesis were there. *)
Theorem parse_tokens_open_group (before inner : list string) :
  balanced before = true -> balanced inner = true ->
  parse_tokens (before ++ "(" :: inner)
  = parse_tokens (before ++ "(" :: inner ++ [")"]).
Proof.
  intros Hb Hi. apply balanced_Balanced in Hb, Hi.
  destruct (parse_tokens_loop_balanced before Hb) as (nb & _ & Lb).
  destruct (parse_tokens_loop_open_group inner Hi) as (ni & Li).
  unfold parse_tokens, parse_tokens_rest.
  rewrite !Lb by lia.
  destruct (Li ([] ++ nb)) as [L1 L2].
  rewrite L1, L2; [reflexivity | |];
    repeat (rewrite length_app; cbn [List.length]); lia.
Qed.

Lemma parse_tokens_open_group_witness :
  parse_tokens (["a"; "AND"] ++ "(" :: ["b"; "OR"; "c"])
  = parse_tokens (["a"; "AND"] ++ "(" :: ["b"; "OR"; "c"] ++ [")"]).
Proof.
  exact (parse_tokens_open_group ["a"; "AND"] ["b"; "OR"; "c"] eq_refl eq_refl).
Defined.

(** ** The parser under the recursion limit *)

(** C8, as the code has it: tokenizing always returns, and parsing
    returns the tree of the tokens exactly when that tree nests no deeper
    than the nested calls the interpreter allows, which holds when the
    query has no more opening parentheses than that; deeper nesting
    raises [RecursionError].  Within that limit a [")"] that closes no
    ["("] ends the top-level group, the tokens behind it are left unread
    and the tree is the one of the tokens before it; the query
    ["a) AND b"] gives the group that holds only ["a"]. *)
Theorem parse_query_within_recursion_limit :
  (forall frames query nodes,
      parse_query query = Some (Group nodes) ->
      parse_query_limited frames query
      = Some (if (nesting nodes <=? frames)%nat
              then Returned (Group nodes)
              else RecursionError))
  /\ (forall frames query,
         (opens (tokenize query) <= frames)%nat ->
         exists nodes,
           parse_query_limited frames query = Some (Returned (Group nodes)))
  /\ (forall frames before after,
         balanced before = true ->
         (opens before <= frames)%nat ->
         exists nodes,
           parse_tokens_limited_rest frames (before ++ ")" :: after)
           = Some (Returned (nodes, after))
           /\ parse_tokens_limited frames (before ++ ")" :: after)
              = Some (Returned (Group nodes))
           /\ parse_tokens_limited frames before
              = Some (Returned (Group nodes)))
  /\ (forall frames,
         parse_query_limited frames "a) AND b"
         = Some (Returned (Group [Term "a"]))).
Proof.
  assert (forall frames tokens nodes,
             parse_tokens tokens = Some (Group nodes) ->
             parse_tokens_limited frames tokens
             = Some (if (nesting nodes <=? frames)%nat
                     then Returned (Group nodes)
                     else RecursionError)) as P1.
  { intros frames tokens nodes H.
    destruct (parse_tokens_limited_rest_spec frames tokens)
      as (nodes' & rest & E & _ & L).
    unfold parse_tokens in H. rewrite E in H. cbn in H.
    injection H as ->.
    unfold parse_tokens_limited. rewrite L.
    now destruct (nesting nodes <=? frames)%nat. }
  split; [|split; [|split]].
  - intros frames query nodes H. now apply P1.
  - intros frames query Hf.
    destruct (parse_tokens_limited_rest_spec frames (tokenize query))
      as (nodes & rest & E & N & L).
    exists nodes. unfold parse_query_limited, parse_tokens_limited.
    rewrite L.
    destruct (Nat.leb_spec (nesting nodes) frames); [reflexivity | lia].
  - intros frames before after Hb Hf.
    destruct (parse_tokens_rest_balanced before after Hb)
      as (nodes & _ & E1 & E2).
    exists nodes.
    destruct (parse_tokens_limited_rest_spec frames before)
      as (n1 & r1 & F1 & N1 & L1).
    destruct (parse_tokens_limited_rest_spec frames (before ++ ")" :: after))
      as (n2 & r2 & F2 & _ & L2).
    rewrite E1 in F1. injection F1 as <- <-.
    rewrite E2 in F2. injection F2 as <- <-.
    assert ((nesting nodes <=? frames)%nat = true) as Hn
        by (apply Nat.leb_le; lia).
    rewrite Hn in L1, L2.
    unfold parse_tokens_limited. now rewrite L1, L2.
  - intros frames. unfold parse_query_limited.
    now rewrite (P1 frames _ [Term "a"]).
Qed.

Lemma parse_query_within_recursion_limit_witness :
  parse_query_limited 1 "((a OR b))" = Some RecursionError
  /\ (exists nodes,
         parse_query_limited 2 "((a OR b))" = Some (Returned (Group nodes)))
  /\ exists nodes,
      parse_tokens_limited_rest 0 (["a"; "AND"; "b"] ++ ")" :: ["OR"; "c"])
      = Some (Returned (nodes, ["OR"; "c"]))
      /\ parse_tokens_limited 0 (["a"; "AND"; "b"] ++ ")" :: ["OR"; "c"])
         = Some (Returned (Group nodes))
      /\ parse_tokens_limited 0 ["a"; "AND"; "b"]
         = Some (Returned (Group nodes)).
Proof.
  split; [|split].
  - exact (proj1 parse_query_within_recursion_limit 1 "((a OR b))"
             [Group [Group [Term "a"; Term "OR"; Term "b"]]] eq_refl).
  - apply (proj1 (proj2 parse_query_within_recursion_limit) 2 "((a OR b))").
    vm_compute. lia.
  - apply (proj1 (proj2 (proj2 parse_query_within_recursion_limit)) 0
             ["a"; "AND"; "b"] ["OR"; "c"] eq_refl).
    vm_compute. lia.
Defined.

(** C8 fails as stated: with the 1000 frames of Python's default
    recursion limit, all taken as free, the query of 1100 opening
    parentheses raises [RecursionError]. *)
Lemma parse_query_recursion_error :
  parse_query_limited 1000 (open_parens 1100) = Some RecursionError.
Proof. vm_compute. reflexivity. Qed.

(** ** Operators and minimal groups *)

Lemma existsb_flat_map {A B : Type} (p : B -> bool) (f : A -> list B)
      (l : list A) :
  existsb p (flat_map f l) = existsb (fun x => existsb p (f x)) l.
Proof.
  induction l as [|x l IH]; simpl; [reflexivity|].
  now rewrite existsb_app, IH.
Qed.

Lemma existsb_Forall_eq {A : Type} (p q : A -> bool) (l : list A) :
  Forall (fun x => p x = q x) l -> existsb p l = existsb q l.
Proof. induction 1 as [|x l E _ IH]; simpl; [reflexivity | now rewrite E, IH]. Qed.

Lemma contains_operator_Group (l : list Node) :
  Forall (fun elem =>
            contains_operator elem
            = is_list elem && existsb is_operator (flatten_tokens elem)) l ->
  contains_operator (Group l)
  = existsb is_operator (flat_map flatten_tokens l).
Proof.
  intros IH. cbn [contains_operator]. rewrite existsb_flat_map.
  apply existsb_Forall_eq.
  eapply Forall_impl; [|exact IH]. intros elem E.
  destruct elem as [s|items].
  - cbn. now rewrite orb_false_r.
  - exact E.
Qed.

Lemma contains_operator_flatten (group : Node) :
  contains_operator group
  = is_list group && existsb is_operator (flatten_tokens group).
Proof.
  induction group as [s|l IH] using Node_rect'; [reflexivity|].
  now apply contains_operator_Group.
Qed.

(** X7: a list contains an operator exactly when one of its leaves, at
    any depth, is AND or OR in some letter-casing; a bare string never
    does, whatever it is. *)
Theorem contains_operator_leaves (group : Node) :
  (contains_operator group = true
   <-> is_list group = true
       /\ exists t, In t (flatten_tokens group) /\ is_operator t = true)
  /\ (forall s, contains_operator (Term s) = false).
Proof.
  split; [|reflexivity].
  rewrite contains_operator_flatten, andb_true_iff, existsb_exists.
  reflexivity.
Qed.

Lemma flat_map_not_nil {A B : Type} (f : A -> list B) (l : list A) (x : A) :
  In x l -> f x <> [] -> flat_map f l <> [].
Proof.
  induction l as [|y l IH]; [contradiction|].
  intros [->|Hin] Hx; cbn.
  - destruct (f x); [congruence | discriminate].
  - intros E. apply app_eq_nil in E as [_ E]. now apply IH.
Qed.

(** X8: the extractor returns no group exactly when the tree contains no
    operator. *)
Theorem get_minimal_operator_groups_nil (tree : Node) :
  get_minimal_operator_groups tree = [] <-> contains_operator tree = false.
Proof.
  induction tree as [s|l IH] using Node_rect'; [now split|].
  rewrite get_minimal_operator_groups_Group.
  destruct (contains_operator (Group l)) eqn:C; [|now split].
  split; [|discriminate]. intros E. exfalso.
  destruct (existsb is_operator_group l) eqn:X.
  - apply existsb_exists in X as (child & Hin & Hc).
    rewrite app_nil_r in E. revert E.
    apply (flat_map_not_nil harvest l child Hin).
    unfold harvest. rewrite Hc.
    rewrite Forall_forall in IH. rewrite (IH child Hin).
    unfold is_operator_group in Hc. apply andb_true_iff in Hc as [_ Hc].
    congruence.
  - apply app_eq_nil in E as [_ E]. discriminate.
Qed.

Lemma harvest_none (l : list Node) :
  existsb is_operator_group l = false -> flat_map harvest l = [].
Proof.
  induction l as [|x l IH]; [reflexivity|]. cbn [existsb flat_map].
  intros H. apply orb_false_iff in H as [Hx Hl].
  unfold harvest at 1. now rewrite Hx, IH.
Qed.

(** X9: every group returned is its own only minimal group: extracting
    again from a returned group gives that group back. *)
Theorem get_minimal_operator_groups_fixed (tree : Node) :
  Forall (fun g => get_minimal_operator_groups g = [g])
         (get_minimal_operator_groups tree).
Proof.
  rewrite minimal_groups_postorder. apply Forall_forall. intros g Hg.
  apply filter_In in Hg as [_ M]. unfold is_minimal_group in M.
  apply andb_true_iff in M as [M N]. apply andb_true_iff in M as [L C].
  destruct g as [s|l]; [discriminate|]. cbn [children] in N.
  apply negb_true_iff in N.
  rewrite get_minimal_operator_groups_Group, C, N.
  now rewrite (harvest_none l N).
Qed.

(** ** When the flattener returns a string *)

Lemma is_list_join_modified (m : list Node) :
  is_list (join_modified m) = or_in m || is_list_within m.
Proof.
  unfold join_modified. now destruct (or_in m), (is_list_within m).
Qed.

(** A joined string is never ["OR"]. *)
Lemma join_modified_not_OR (m : list Node) (s : string) :
  join_modified m = Term s -> String.eqb "OR" s = false.
Proof.
  unfold join_modified.
  destruct (or_in m) eqn:O; [discriminate|].
  destruct (is_list_within m) eqn:L; [discriminate|].
  cbn [negb andb]. intros [= <-].
  apply String.eqb_neq. intros E. symmetry in E. apply join_is_OR in E.
  apply is_list_within_false, item_str_Term in L.
  rewrite E in L. rewrite <- L in O. discriminate.
Qed.

Lemma join_keyword_is_list (structure : Node) :
  is_list (join_keyword structure)
  = existsb (String.eqb "OR") (flatten_tokens structure).
Proof.
  induction structure as [s|l IH] using Node_rect'.
  - rewrite join_keyword_Term, is_list_join_modified. cbn.
    now rewrite !orb_false_r.
  - rewrite join_keyword_Group, is_list_join_modified.
    cbn [flatten_tokens]. rewrite existsb_flat_map.
    unfold or_in, is_list_within.
    induction IH as [|item l E _ IHl]; [reflexivity|].
    cbn [map existsb]. rewrite <- IHl.
    set (A := existsb _ (map join_child l)).
    set (B := existsb is_list (map join_child l)).
    destruct item as [s|items].
    + cbn [join_child is_list flatten_tokens existsb].
      now destruct (String.eqb "OR" s), A, B.
    + cbn [join_child]. rewrite <- E.
      destruct (join_keyword (Group items)) as [s|m] eqn:J.
      * rewrite join_keyword_Group in J. apply join_modified_not_OR in J.
        rewrite J. cbn. now destruct A, B.
      * cbn. now destruct A, B.
Qed.

(** X10: the flattener returns one string exactly when no leaf of the
    structure, at any depth, is the token ["OR"] itself; then the whole
    structure collapses into that string. *)
Theorem join_keyword_string_iff (structure : Node) :
  (exists s, join_keyword structure = Term s)
  <-> ~ In "OR" (flatten_tokens structure).
Proof.
  pose proof (join_keyword_is_list structure) as E. split.
  - intros [s J] Hin. rewrite J in E. cbn [is_list] in E. symmetry in E.
    assert (existsb (String.eqb "OR") (flatten_tokens structure) = true) as X;
      [|congruence].
    apply existsb_exists. exists "OR". split; [exact Hin | reflexivity].
  - intros N. destruct (join_keyword structure) as [s|m]; [now exists s|].
    cbn [is_list] in E. symmetry in E. apply existsb_exists in E as (t & Hin & Ht).
    apply String.eqb_eq in Ht. now subst t.
Qed.

(** ** Keywords in the reconstructed query *)

Lemma occurs_concat (sub sep p : string) (parts : list string) :
  In p parts -> Str.occurs sub p -> Str.occurs sub (String.concat sep parts).
Proof.
  intros Hin Ho. induction parts as [|x parts IH]; [contradiction|].
  destruct parts as [|y parts].
  - destruct Hin as [->|[]]. exact Ho.
  - cbn [String.concat]. destruct Hin as [->|Hin].
    + pose proof (StrFacts.occurs_wrap sub "" p
                    (sep ++ String.concat sep (y :: parts)) Ho) as X.
      exact X.
    + pose proof (StrFacts.occurs_wrap sub (x ++ sep) _ "" (IH Hin)) as X.
      rewrite StrFacts.app_nil_r, StrFacts.app_assoc in X. exact X.
Qed.

Lemma leaf_occurs (structure : Node) :
  forall t top_level,
    In t (flatten_tokens structure) -> is_operator t = false ->
    Str.occurs ("(" ++ t ++ ")") (reverse_joined_keywords structure top_level).
Proof.
  induction structure as [s|l IH] using Node_rect'; intros t top Hin Hop.
  - destruct Hin as [->|[]]. cbn. rewrite Hop.
    exists ""%string, ""%string. cbn. now rewrite StrFacts.app_nil_r.
  - cbn [flatten_tokens] in Hin. apply in_flat_map in Hin as (x & Hx & Ht).
    rewrite Forall_forall in IH.
    assert (Str.occurs ("(" ++ t ++ ")") (joined_parts l)) as X.
    { apply (occurs_concat _ _ (reverse_joined_keywords x false)).
      - apply in_map_iff. now exists x.
      - now apply IH. }
    rewrite reverse_joined_keywords_Group.
    destruct top; cbn [negb]; [exact X|].
    now apply (StrFacts.occurs_wrap _ "(" _ ")").
Qed.

(** X11: whatever the structure, every keyword that the tagger returns
    occurs in the reconstructed query wrapped in its parentheses, which
    is the text removed for a keyword without hint. *)
Theorem keyword_occurs (structure : Node) (or_keyword : OrKeyword) :
  In or_keyword (get_or_keyword structure) ->
  Str.contains ("(" ++ fst or_keyword ++ ")")
               (reverse_joined_keywords structure true) = true.
Proof.
  intros Hin. apply StrFacts.contains_occurs.
  assert (In (fst or_keyword) (keyword_terms structure)) as Ht.
  { rewrite <- (map_fst_tag_positions (keyword_terms structure)).
    rewrite <- get_or_keyword_keyword_terms. now apply in_map. }
  apply filter_In in Ht as [Hl Hop]. apply negb_true_iff in Hop.
  now apply leaf_occurs.
Qed.

Lemma keyword_occurs_witness :
  Str.contains "(c)" "((a) OR (b)) ((c) OR (d))" = true.
Proof.
  exact (keyword_occurs two_or_groups ("c", Some "before")
           (or_intror (or_intror (or_introl eq_refl)))).
Defined.

(** ** What the elimination loop returns *)

Lemma string_length_app (s t : string) :
  String.length (s ++ t) = (String.length s + String.length t)%nat.
Proof. induction s as [|c s IH]; simpl; [reflexivity | now rewrite IH]. Qed.

(** Removing a text never makes the query longer. *)
Lemma replace_scan_length (old : string) (s : string) :
  forall skip,
    (String.length (Str.replace_scan old "" skip s) <= String.length s)%nat.
Proof.
  induction s as [|c r IH]; intros skip; [reflexivity|].
  cbn [Str.replace_scan String.length]. destruct skip as [|k].
  - destruct (String.prefix old (String c r)).
    + cbn [append]. specialize (IH (String.length old - 1)%nat). lia.
    + cbn [String.length]. specialize (IH 0%nat). lia.
  - specialize (IH k). lia.
Qed.

Lemma new_query_length (current_query : string) (or_keyword : OrKeyword) :
  (String.length (new_query current_query or_keyword)
   <= String.length current_query)%nat.
Proof.
  unfold new_query.
  destruct (replace_text_nonempty or_keyword) as (c & r & ->).
  apply replace_scan_length.
Qed.

(** Removing a text that occurs makes the query shorter. *)
Lemma new_query_shorter (current_query : string) (or_keyword : OrKeyword) :
  Str.contains (replace_text or_keyword) current_query = true ->
  (String.length (new_query current_query or_keyword)
   < String.length current_query)%nat.
Proof.
  unfold Str.contains, new_query.
  destruct (replace_text_nonempty or_keyword) as (c & r & ->).
  unfold Str.replace.
  rewrite (StrFacts.replace_scan_find c r "" current_query).
  destruct (Str.find (String c r) current_query) as [n|] eqn:F;
    [intros _ | discriminate].
  pose proof (StrFacts.find_Some _ _ _ F) as E.
  apply (f_equal String.length) in E.
  rewrite !string_length_app in E. rewrite !string_length_app.
  pose proof (replace_scan_length (String c r)
                (Str.drop (n + String.length (String c r)) current_query) 0).
  cbn [String.length] in *. lia.
Qed.

Section SearchPubmedResults.

Variable perform_search : string -> Z.
Variable query : string.

Lemma search_loop_length (done : list OrKeyword) :
  (String.length (snd (search_loop perform_search query done))
   <= String.length query)%nat
  /\ (List.length (fst (search_loop perform_search query done))
      <= List.length done)%nat.
Proof.
  induction done as [|or_keyword done [IH1 IH2]] using rev_ind.
  - split; reflexivity.
  - rewrite search_loop_snoc, length_app.
    destruct (search_loop perform_search query done) as [excluded current].
    unfold search_step. cbn [fst snd List.length] in *.
    pose proof (new_query_length current or_keyword).
    destruct (Z.eqb (perform_search (new_query current or_keyword))
                    (perform_search query)); cbn [fst snd].
    + rewrite length_app. cbn [List.length]. lia.
    + lia.
Qed.

(** With an oracle that gives the baseline count to every query, every
    removal is kept. *)
Lemma search_loop_constant (done : list OrKeyword) :
  (forall q, perform_search q = perform_search query) ->
  search_loop perform_search query done
  = (map fst done, fold_left new_query done query).
Proof.
  intros H. induction done as [|or_keyword done IH] using rev_ind.
  - reflexivity.
  - rewrite search_loop_snoc, IH. unfold search_step.
    rewrite H, Z.eqb_refl, map_app, fold_left_app. reflexivity.
Qed.

(** With an oracle that gives the baseline count to no other query, no
    removal is kept, and the keywords whose text is absent are
    excluded. *)
Lemma search_loop_distinct (done : list OrKeyword) :
  (forall q, q <> query -> perform_search q <> perform_search query) ->
  search_loop perform_search query done
  = (map fst (filter (fun or_keyword =>
                        negb (Str.contains (replace_text or_keyword) query))
                     done),
     query).
Proof.
  intros H. induction done as [|or_keyword done IH] using rev_ind.
  - reflexivity.
  - rewrite search_loop_snoc, IH, filter_app, map_app. unfold search_step.
    cbn [filter].
    destruct (Str.contains (replace_text or_keyword) query) eqn:C; cbn [negb].
    + assert (new_query query or_keyword <> query) as N.
      { intros E. pose proof (new_query_shorter _ _ C) as L.
        rewrite E in L. lia. }
      apply H, Z.eqb_neq in N. rewrite N. cbn [map]. now rewrite app_nil_r.
    + rewrite (new_query_absent _ _ C), Z.eqb_refl. reflexivity.
Qed.

End SearchPubmedResults.

(** X12: the query returned is never longer than the query given, no
    more keywords are excluded than were given, and the query returned
    has the count returned. *)
Theorem search_pubmed_shrinks
  (perform_search : string -> Z) (query : string) (or_keywords : list OrKeyword) :
  let '(result_count, final_query, excluded) :=
    search_pubmed perform_search query or_keywords in
  (String.length final_query <= String.length query)%nat
  /\ (List.length excluded <= List.length or_keywords)%nat
  /\ perform_search final_query = result_count.
Proof.
  unfold search_pubmed.
  pose proof (search_loop_length perform_search query or_keywords) as [L1 L2].
  pose proof (search_loop_count perform_search query or_keywords) as C.
  destruct (search_loop perform_search query or_keywords) as [excluded final].
  cbn [fst snd] in *. auto.
Qed.

(** X13: when the oracle gives every query the same count, every keyword
    is excluded and the query returned is the query given with the text
    of every keyword removed in turn. *)
Theorem search_pubmed_constant_oracle
  (perform_search : string -> Z) (query : string) (or_keywords : list OrKeyword) :
  (forall q, perform_search q = perform_search query) ->
  search_pubmed perform_search query or_keywords
  = (perform_search query, fold_left new_query or_keywords query,
     map fst or_keywords).
Proof.
  intros H. unfold search_pubmed.
  now rewrite (search_loop_constant perform_search query or_keywords H).
Qed.

Lemma search_pubmed_constant_oracle_witness :
  search_pubmed (fun _ => 7%Z) "(cat) OR (feline)"
    [("cat", Some "after"); ("feline", Some "before")]
  = (7%Z, "(feline)", ["cat"; "feline"]).
Proof.
  exact (search_pubmed_constant_oracle (fun _ => 7%Z) "(cat) OR (feline)"
           [("cat", Some "after"); ("feline", Some "before")]
           (fun _ => eq_refl)).
Defined.

(** X14: when the oracle gives the baseline count to no query but the
    query given, the query is returned unchanged, and the keywords
    excluded are exactly those whose text does not occur in it. *)
Theorem search_pubmed_distinct_oracle
  (perform_search : string -> Z) (query : string) (or_keywords : list OrKeyword) :
  (forall q, q <> query -> perform_search q <> perform_search query) ->
  search_pubmed perform_search query or_keywords
  = (perform_search query, query,
     map fst (filter (fun or_keyword =>
                        negb (Str.contains (replace_text or_keyword) query))
                     or_keywords)).
Proof.
  intros H. unfold search_pubmed.
  now rewrite (search_loop_distinct perform_search query or_keywords H).
Qed.

Lemma only_query_oracle_distinct (query q : string) :
  q <> query ->
  (if String.eqb q query then 1%Z else 0%Z)
  <> (if String.eqb query query then 1%Z else 0%Z).
Proof.
  intros N. apply String.eqb_neq in N. rewrite N, String.eqb_refl.
  discriminate.
Qed.

Lemma search_pubmed_distinct_oracle_witness :
  search_pubmed (fun q => if String.eqb q "((a) OR (b)) ((c) OR (d))"
                          then 1%Z else 0%Z)
    "((a) OR (b)) ((c) OR (d))"
    [("a", Some "after"); ("b", Some "before");
     ("c", Some "before"); ("d", Some "before")]
  = (1%Z, "((a) OR (b)) ((c) OR (d))", ["c"]).
Proof.
  exact (search_pubmed_distinct_oracle
           (fun q => if String.eqb q "((a) OR (b)) ((c) OR (d))"
                     then 1%Z else 0%Z)
           "((a) OR (b)) ((c) OR (d))"
           [("a", Some "after"); ("b", Some "before");
            ("c", Some "before"); ("d", Some "before")]
           (only_query_oracle_distinct "((a) OR (b)) ((c) OR (d))")).
Defined.

(** ** [main] on any query *)

(** The leaves of the parsed tree are tokens of the input. *)
Lemma parse_tokens_leaves (tokens : list string) :
  exists nodes,
    parse_tokens tokens = Some (Group nodes)
    /\ incl (flat_map flatten_tokens nodes) (filter not_paren tokens).
Proof.
  unfold parse_tokens, parse_tokens_rest.
  destruct (parse_tokens_loop_total (S (List.length tokens)) tokens []
              ltac:(lia)) as (nodes & rest & E & _).
  exists nodes. rewrite E. split; [reflexivity|].
  apply parse_tokens_loop_conserves in E as (nodes' & -> & F & _).
  rewrite <- F. cbn [app]. now apply incl_appl, incl_refl.
Qed.

Lemma main_search_args_parsed (args_query : string) :
  exists nodes,
    incl (flat_map flatten_tokens nodes) (filter not_paren (tokenize args_query))
    /\ main_search_args args_query
       = Some (reverse_joined_keywords
                 (join_keyword
                    (Group (get_minimal_operator_groups (Group nodes)))) true,
               get_or_keyword
                 (join_keyword
                    (Group (get_minimal_operator_groups (Group nodes))))).
Proof.
  destruct (parse_tokens_leaves (tokenize args_query)) as (nodes & P & I).
  exists nodes. split; [exact I|].
  unfold main_search_args, parse_query.
  now rewrite tokenize_str_strip, P.
Qed.



(** ** Parentheses of the query that [main] builds *)

Lemma paren_depth_app (a b : string) :
  forall depth,
    paren_depth depth (a ++ b)
    = match paren_depth depth a with
      | Some d => paren_depth d b
      | None => None
      end.
Proof.
  induction a as [|c a IH]; intros depth; [reflexivity|].
  cbn [append paren_depth].
  destruct (Ascii.eqb c "("); [apply IH|].
  destruct (Ascii.eqb c ")"); [|apply IH].
  destruct depth; [reflexivity | apply IH].
Qed.

Lemma depth_neutral_app (a b : string) :
  depth_neutral a -> depth_neutral b -> depth_neutral (a ++ b).
Proof. intros Ha Hb d. now rewrite paren_depth_app, Ha, Hb. Qed.

Lemma depth_neutral_wrap (s : string) :
  depth_neutral s -> depth_neutral ("(" ++ s ++ ")").
Proof.
  intros H d. cbn [append paren_depth Ascii.eqb Bool.eqb].
  rewrite paren_depth_app, H. reflexivity.
Qed.

Lemma paren_free_neutral (s : string) :
  paren_free s = true -> depth_neutral s.
Proof.
  unfold paren_free. induction s as [|c s IH]; intros H d; [reflexivity|].
  cbn [all_chars] in H. apply andb_true_iff in H as [Hc Hs].
  apply andb_true_iff in Hc as [H1 H2]. apply negb_true_iff in H1, H2.
  cbn [paren_depth]. rewrite H1, H2. now apply IH.
Qed.

Lemma depth_neutral_concat (parts : list string) :
  Forall depth_neutral parts -> depth_neutral (String.concat " " parts).
Proof.
  induction 1 as [|x parts Hx Hp IH]; [intros d; reflexivity|].
  destruct parts as [|y parts]; [exact Hx|].
  cbn [String.concat]. apply depth_neutral_app; [exact Hx|].
  apply depth_neutral_app; [intros d; reflexivity | exact IH].
Qed.

Lemma all_chars_app (p : ascii -> bool) (a b : string) :
  all_chars p (a ++ b) = all_chars p a && all_chars p b.
Proof.
  induction a as [|c a IH]; [reflexivity|]. cbn.
  now rewrite IH, andb_assoc.
Qed.

Lemma paren_free_concat (parts : list string) :
  Forall (fun s => paren_free s = true) parts ->
  paren_free (String.concat " " parts) = true.
Proof.
  unfold paren_free.
  induction 1 as [|x parts Hx Hp IH]; [reflexivity|].
  destruct parts as [|y parts]; [exact Hx|].
  change (String.concat " " (x :: y :: parts))
    with (x ++ " " ++ String.concat " " (y :: parts))%string.
  rewrite !all_chars_app, Hx, IH. reflexivity.
Qed.

Lemma token_paren_free (tok : string) :
  token_shape tok = true -> not_paren tok = true -> paren_free tok = true.
Proof.
  unfold token_shape, not_paren, is_paren. intros H N.
  apply negb_true_iff in N. rewrite N in H. cbn [orb] in H.
  apply andb_true_iff in H as [_ H]. unfold paren_free. clear N.
  induction tok as [|c tok IH]; [reflexivity|].
  cbn [all_chars] in *. apply andb_true_iff in H as [Hc Ht].
  apply is_term_char_true in Hc as (_ & -> & ->). now apply IH.
Qed.

(** The tokens of a group of the tree are tokens of the tree. *)
Lemma groups_postorder_leaves (tree : Node) :
  forall g, In g (groups_postorder tree) ->
            incl (flatten_tokens g) (flatten_tokens tree).
Proof.
  induction tree as [s|l IH] using Node_rect'; intros g Hg; [contradiction|].
  cbn [groups_postorder] in Hg. apply in_app_or in Hg as [Hg|[<-|[]]].
  - apply in_flat_map in Hg as (x & Hx & Hg).
    rewrite Forall_forall in IH. intros t Ht.
    cbn [flatten_tokens]. apply in_flat_map. exists x. split; [exact Hx|].
    now apply (IH x Hx g Hg).
  - apply incl_refl.
Qed.

Lemma join_keyword_paren_free (structure : Node) :
  Forall (fun t => paren_free t = true) (flatten_tokens structure) ->
  Forall (fun t => paren_free t = true)
         (flatten_tokens (join_keyword structure)).
Proof.
  induction structure as [s|l IH] using Node_rect'; intros H.
  - rewrite join_keyword_Term. unfold join_modified.
    destruct (negb (or_in [Term s]) && negb (is_list_within [Term s]));
      cbn; cbn in H; now rewrite ?app_nil_r.
  - rewrite join_keyword_Group.
    assert (Forall (fun x => Forall (fun t => paren_free t = true)
                                    (flatten_tokens x))
                   (map join_child l)) as M.
    { cbn [flatten_tokens] in H. apply Forall_forall. intros y Hy.
      apply in_map_iff in Hy as (x & <- & Hx).
      rewrite Forall_forall in IH.
      assert (Forall (fun t => paren_free t = true) (flatten_tokens x)) as Fx.
      { apply Forall_forall. intros t Ht.
        rewrite Forall_forall in H. apply H, in_flat_map. now exists x. }
      destruct x as [s|items]; [exact Fx | now apply (IH _ Hx)]. }
    unfold join_modified.
    destruct (negb (or_in (map join_child l))
              && negb (is_list_within (map join_child l))).
    + cbn [flatten_tokens]. constructor; [|constructor].
      apply paren_free_concat. apply Forall_forall. intros s Hs.
      apply in_map_iff in Hs as (y & <- & Hy).
      rewrite Forall_forall in M. specialize (M y Hy).
      destruct y as [s|items]; [|reflexivity].
      now inversion M.
    + cbn [flatten_tokens]. apply Forall_forall. intros t Ht.
      apply in_flat_map in Ht as (y & Hy & Ht).
      rewrite Forall_forall in M. specialize (M y Hy).
      rewrite Forall_forall in M. now apply M.
Qed.

Lemma reverse_joined_keywords_neutral (structure : Node) :
  Forall (fun t => paren_free t = true) (flatten_tokens structure) ->
  forall top_level,
    depth_neutral (reverse_joined_keywords structure top_level).
Proof.
  induction structure as [s|l IH] using Node_rect'; intros H top.
  - inversion H as [|? ? Hs _]; subst. cbn [reverse_joined_keywords].
    apply paren_free_neutral in Hs.
    destruct (is_operator s); [exact Hs | now apply depth_neutral_wrap].
  - rewrite reverse_joined_keywords_Group.
    assert (depth_neutral (joined_parts l)) as J.
    { apply depth_neutral_concat. apply Forall_forall. intros p Hp.
      apply in_map_iff in Hp as (x & <- & Hx).
      rewrite Forall_forall in IH. apply (IH x Hx).
      apply Forall_forall. intros t Ht. rewrite Forall_forall in H.
      apply H. cbn [flatten_tokens]. apply in_flat_map. now exists x. }
    destruct top; cbn [negb]; [exact J | now apply depth_neutral_wrap].
Qed.

(** X16: the reconstruction of a structure whose strings hold no
    parenthesis has balanced parentheses; and whenever [main] reaches
    [search_pubmed], the search query it hands over has balanced
    parentheses, also when the parentheses of the query given are not
    balanced. *)
Theorem main_search_query_balanced :
  (forall structure top_level,
      Forall (fun t => paren_free t = true) (flatten_tokens structure) ->
      parens_balanced (reverse_joined_keywords structure top_level) = true)
  /\ (forall args_query search_query or_keyword_list,
         main_search_args args_query = Some (search_query, or_keyword_list) ->
         parens_balanced search_query = true).
Proof.
  split.
  - intros structure top_level H. unfold parens_balanced.
    now rewrite reverse_joined_keywords_neutral.
  - intros args_query search_query or_keyword_list H.
    destruct (main_search_args_parsed args_query) as (nodes & I & E).
    rewrite E in H.
    apply (f_equal (fun o => match o with
                             | Some p => fst p
                             | None => EmptyString
                             end)) in H.
    cbv beta iota delta [fst] in H. subst search_query.
    unfold parens_balanced.
    rewrite reverse_joined_keywords_neutral; [reflexivity|].
    apply join_keyword_paren_free. cbn [flatten_tokens].
    apply Forall_forall. intros t Ht.
    apply in_flat_map in Ht as (g & Hg & Ht).
    rewrite minimal_groups_postorder in Hg. apply filter_In in Hg as [Hg _].
    apply (groups_postorder_leaves _ _ Hg) in Ht. cbn [flatten_tokens] in Ht.
    apply I, filter_In in Ht as [Ht N].
    pose proof (findall_shape args_query None 0) as S.
    rewrite Forall_forall in S. now apply token_paren_free; [apply S|].
Qed.

Lemma main_search_query_balanced_witness :
  parens_balanced "((a b) OR (c))" = true
  /\ parens_balanced "((a) OR (b))" = true.
Proof.
  split.
  - apply (proj1 main_search_query_balanced
             (Group [Term "a b"; Term "OR"; Term "c"]) false).
    repeat constructor.
  - exact (proj2 main_search_query_balanced "(a OR b"
             "((a) OR (b))" [("a", Some "after"); ("b", Some "before")]
             eq_refl).
Defined.

(** ** [main] on a query of terms separated by OR *)

(** Without parentheses every token becomes a leaf of the top-level
    list. *)
Lemma parse_tokens_loop_flat (tokens : list string) :
  existsb is_paren tokens = false ->
  forall fuel tree,
    (List.length tokens < fuel)%nat ->
    parse_tokens_loop fuel tokens tree = Some (tree ++ map Term tokens, []).
Proof.
  induction tokens as [|token tokens IH]; intros H fuel tree Hf.
  - destruct fuel; [lia|]. cbn. now rewrite app_nil_r.
  - cbn [existsb] in H. apply orb_false_iff in H as [Hp Ht].
    destruct (is_paren_false _ Hp) as [E1 E2].
    destruct fuel as [|fuel]; [lia|]. cbn [List.length] in Hf.
    rewrite parse_tokens_loop_step, E1, E2, (IH Ht) by lia.
    cbn [map]. now rewrite <- app_assoc.
Qed.

Lemma terms_no_operator_group (tokens : list string) :
  existsb is_operator_group (map Term tokens) = false.
Proof. induction tokens as [|t l IH]; [reflexivity | exact IH]. Qed.

Lemma terms_join_child (tokens : list string) :
  map join_child (map Term tokens) = map Term tokens.
Proof. induction tokens as [|t l IH]; [reflexivity | cbn; now rewrite IH]. Qed.

Lemma terms_not_list_within (tokens : list string) :
  is_list_within (map Term tokens) = false.
Proof. induction tokens as [|t l IH]; [reflexivity | exact IH]. Qed.

(** In an OR-chain the removal text of every keyword occurs in the
    reconstructed query, the lone keyword of a chain of one included. *)
Lemma or_chain_texts_occur (structure : Node) (or_keyword : OrKeyword) :
  is_or_chain structure = true ->
  In or_keyword (get_or_keyword structure) ->
  Str.contains (replace_text or_keyword)
               (reverse_joined_keywords structure true) = true.
Proof.
  intros Hc Hin. apply StrFacts.contains_occurs.
  apply or_chain_render in Hc.
  rewrite get_or_keyword_keyword_terms in Hin.
  destruct (keyword_terms structure) as [|t [|t2 ts]] eqn:K; [contradiction| |].
  - destruct Hin as [<-|[]].
    assert (In t (keyword_terms structure)) as Ht by (rewrite K; now left).
    apply filter_In in Ht as [Hl Hop]. apply negb_true_iff in Hop.
    now apply leaf_occurs.
  - destruct Hc as [H1 H2]. cbn [tag_positions In] in Hin.
    destruct Hin as [<-|Hin].
    + apply H1. discriminate.
    + apply in_map_iff in Hin as (u & <- & Hu). now apply H2.
Qed.

(** What [main] builds from a chain with an operator in it. *)
Lemma or_chain_items_joined (tokens : list string) :
  is_or_chain_items (map Term tokens) = true ->
  contains_operator (Group (map Term tokens)) = true ->
  join_keyword (Group (get_minimal_operator_groups (Group (map Term tokens))))
  = Group [Group (map Term tokens)]
  /\ is_or_chain (Group [Group (map Term tokens)]) = true.
Proof.
  intros Hc Hop.
  rewrite get_minimal_operator_groups_Group, Hop, terms_no_operator_group.
  rewrite (harvest_none _ (terms_no_operator_group tokens)). cbn [app].
  assert (or_in (map Term tokens) = true) as O.
  { destruct tokens as [|t [|sep rest]]; [discriminate| |].
    - cbn in Hc. apply negb_true_iff in Hc. cbn in Hop.
      rewrite Hc in Hop. discriminate.
    - cbn [map is_or_chain_items] in Hc.
      apply andb_true_iff in Hc as [Hc _]. apply andb_true_iff in Hc as [_ Hc].
      apply String.eqb_eq in Hc. subst sep.
      unfold or_in. cbn [map existsb].
      change (String.eqb "OR" "OR") with true. cbn [orb].
      apply orb_true_r. }
  split.
  - rewrite join_keyword_Group. cbn [map join_child].
    rewrite join_keyword_Group, terms_join_child.
    unfold join_modified. rewrite O. reflexivity.
  - destruct tokens as [|t rest]; [discriminate | exact Hc].
Qed.

(** X17: for a query made of terms separated by OR, without
    parentheses, the removal text of every keyword that [main] hands to
    [search_pubmed] occurs in the search query it hands over with them. *)
Theorem main_or_chain_texts_occur (args_query : string) :
  existsb is_paren (tokenize args_query) = false ->
  is_or_chain_items (map Term (tokenize args_query)) = true ->
  exists search_query or_keyword_list,
    main_search_args args_query = Some (search_query, or_keyword_list)
    /\ Forall (fun or_keyword =>
                 Str.contains (replace_text or_keyword) search_query = true)
              or_keyword_list.
Proof.
  intros Hp Hc.
  assert (parse_query (str_strip args_query)
          = Some (Group (map Term (tokenize args_query)))) as P.
  { unfold parse_query, parse_tokens, parse_tokens_rest.
    rewrite tokenize_str_strip.
    now rewrite (parse_tokens_loop_flat _ Hp) by lia. }
  unfold main_search_args. rewrite P.
  destruct (contains_operator (Group (map Term (tokenize args_query)))) eqn:C.
  - destruct (or_chain_items_joined _ Hc C) as [-> Hj].
    eexists _, _. split; [reflexivity|].
    apply Forall_forall. intros or_keyword Hin.
    now apply or_chain_texts_occur.
  - rewrite get_minimal_operator_groups_Group, C.
    eexists _, _. split; [reflexivity|].
    repeat constructor.
Qed.

Lemma main_or_chain_texts_occur_witness :
  exists search_query or_keyword_list,
    main_search_args "cat OR feline OR kitten"
    = Some (search_query, or_keyword_list)
    /\ Forall (fun or_keyword =>
                 Str.contains (replace_text or_keyword) search_query = true)
              or_keyword_list.
Proof.
  exact (main_or_chain_texts_occur "cat OR feline OR kitten" eq_refl eq_refl).
Defined.
